(** * nkrane terminology manager: placeholder substitution pipeline

    A shallow embedding of [src/nkrane/terminology_manager.py] and the
    properties of its term store, span selection, placeholder encoding and
    case-preserving restoration.

    Conventions of the embedding.
    - A Python [str] is a [list ascii].  Case, whitespace and word classes
      are the ASCII ones; a character outside the ASCII range is uncased,
      is not whitespace and is not a word character.  A statement that
      rests on how characters are cased asks for ASCII text ([isascii]).
    - A cell of a data frame is its text, or NaN for a cell left empty.
    - A Python [int] is a [Z].
    - [self.terms] is a [gmap] (only lookups, membership and [len] are
      used); the two per-call dictionaries are association lists kept in
      insertion order, because [postprocess_text] iterates over them.
    - Methods are computations in a state and exception monad over the
      manager object; a raised exception keeps the mutations done so far,
      as in Python.
    - [print] calls are not modelled. *)

From Stdlib Require Import Ascii String ZArith Lia DecimalString DecimalZ.
From stdpp Require Import base tactics option list gmap strings sorting.

Local Open Scope Z_scope.

(** ** Python strings *)

Abbreviation str := (list ascii).

Definition py (s : string) : str := list_ascii_of_string s.

Module Char.
Definition code (c : ascii) : nat := nat_of_ascii c.

Definition isupper (c : ascii) : bool :=
  (Nat.leb 65 (code c) && Nat.leb (code c) 90)%bool.

Definition islower (c : ascii) : bool :=
  (Nat.leb 97 (code c) && Nat.leb (code c) 122)%bool.

Definition isdigit (c : ascii) : bool :=
  (Nat.leb 48 (code c) && Nat.leb (code c) 57)%bool.

Definition iscased (c : ascii) : bool := (isupper c || islower c)%bool.

(** [str.isspace] on one character: TAB, LF, VT, FF, CR, FS, GS, RS, US
    and the space. *)
Definition isspace (c : ascii) : bool :=
  (Nat.leb 9 (code c) && Nat.leb (code c) 13
   || Nat.leb 28 (code c) && Nat.leb (code c) 32)%bool.

(** The class [\w] of the [re] module. *)
Definition isword (c : ascii) : bool :=
  (isupper c || islower c || isdigit c || Nat.eqb (code c) 95)%bool.

Definition lower (c : ascii) : ascii :=
  if isupper c then ascii_of_nat (code c + 32) else c.

Definition upper (c : ascii) : ascii :=
  if islower c then ascii_of_nat (code c - 32) else c.
(** [c.isascii()]. *)
Definition isascii (c : ascii) : bool := Nat.ltb (code c) 128.
End Char.

(** [s.lower()] and [s.upper()]. *)
Definition lower (s : str) : str := map Char.lower s.
Definition upper (s : str) : str := map Char.upper s.

(** [s.isascii()]. *)
Definition isascii (s : str) : bool := forallb Char.isascii s.

(** [s.isupper()]: at least one cased character and no lowercase one. *)
Definition isupper (s : str) : bool :=
  (existsb Char.iscased s && forallb (fun c => negb (Char.islower c)) s)%bool.

(** [s.istitle()], the scan of CPython: an uppercase character may only
    follow an uncased one, a lowercase character only a cased one, and there
    is at least one cased character. *)
Fixpoint istitle_scan (previous_is_cased cased : bool) (s : str) : bool :=
  match s with
  | [] => cased
  | c :: s' =>
      if Char.isupper c then
        if previous_is_cased then false else istitle_scan true true s'
      else if Char.islower c then
        if previous_is_cased then istitle_scan true true s' else false
      else istitle_scan false cased s'
  end.

Definition istitle (s : str) : bool := istitle_scan false false s.

(** [s.capitalize()]: first character uppercased, the rest lowercased. *)
Definition capitalize (s : str) : str :=
  match s with
  | [] => []
  | c :: s' => Char.upper c :: lower s'
  end.

(** [s.lstrip()], [s.rstrip()], [s.strip()]. *)
Fixpoint lstrip (s : str) : str :=
  match s with
  | [] => []
  | c :: s' => if Char.isspace c then lstrip s' else s
  end.

Definition rstrip (s : str) : str := rev (lstrip (rev s)).

Definition strip (s : str) : str := rstrip (lstrip s).

(** Maximal runs of characters satisfying [p], left to right.  The scan goes
    from the right and keeps the run that touches the left end apart. *)
Definition push_run (run : str) (rs : list str) : list str :=
  match run with [] => rs | _ => run :: rs end.

Fixpoint runs_scan (p : ascii -> bool) (s : str) : str * list str :=
  match s with
  | [] => ([], [])
  | c :: s' =>
      let '(run, rs) := runs_scan p s' in
      if p c then (c :: run, rs) else ([], push_run run rs)
  end.

Definition runs (p : ascii -> bool) (s : str) : list str :=
  let '(run, rs) := runs_scan p s in push_run run rs.

(** [s.split()]: the maximal runs of non-whitespace characters. *)
Definition split (s : str) : list str :=
  runs (fun c => negb (Char.isspace c)) s.

(** [re.findall(r'\b\w+\b', s)]: the maximal runs of word characters. *)
Definition findall_words (s : str) : list str := runs Char.isword s.

(** [sep.join(l)]. *)
Fixpoint join (sep : str) (l : list str) : str :=
  match l with
  | [] => []
  | [w] => w
  | w :: l' => w ++ sep ++ join sep l'
  end.

(** [s.startswith(sub)]. *)
Fixpoint startswith (sub s : str) : bool :=
  match sub, s with
  | [], _ => true
  | _ :: _, [] => false
  | a :: sub', b :: s' => if decide (a = b) then startswith sub' s' else false
  end.

(** [s.find(sub)]: the least index at which [sub] occurs in [s], or -1. *)
Fixpoint find_from (sub s : str) (i : Z) : Z :=
  if startswith sub s then i
  else match s with
       | [] => -1
       | _ :: s' => find_from sub s' (i + 1)
       end.

Definition find (s sub : str) : Z := find_from sub s 0.

(** Slice bounds: a negative index counts from the end, and both ends are
    clamped to the string. *)
Definition slice_index (n : nat) (i : Z) : nat :=
  if i <? 0 then Z.to_nat (Z.of_nat n + i) else Nat.min n (Z.to_nat i).

(** [s[:i]] and [s[i:]]. *)
Definition slice_to (s : str) (i : Z) : str := take (slice_index (length s) i) s.
Definition slice_from (s : str) (i : Z) : str := drop (slice_index (length s) i) s.

(** [s.replace(old, new)]: every non-overlapping occurrence of [old], found
    left to right, is replaced.  [skip] counts the characters of a matched
    occurrence that are still to be passed over.  With an empty [old],
    [new] is put before every character and at the end. *)
Fixpoint replace_scan (old new : str) (skip : nat) (s : str) : str :=
  match s with
  | [] => []
  | c :: s' =>
      match skip with
      | S k => replace_scan old new k s'
      | O =>
          if startswith old s
          then new ++ replace_scan old new (Nat.pred (length old)) s'
          else c :: replace_scan old new O s'
      end
  end.

Definition replace (s old new : str) : str :=
  match old with
  | [] => new ++ flat_map (fun c => c :: new) s
  | _ => replace_scan old new O s
  end.

(** [str(n)] for an integer: decimal digits, with a leading minus sign for a
    negative number. *)
Definition str_of_int (n : Z) : str :=
  list_ascii_of_string (NilEmpty.string_of_int (Z.to_int n)).

(** ** Data model *)

Module Term.
Record t := mk {
  id : Z;
  term : str;
  translation : str;
  domain : str;
  language : str;
  google_language_code : option str
}.
End Term.
Abbreviation Term := Term.t.

(** The dictionaries built by [_extract_noun_phrases]; the fallback
    extractor leaves the key ['root'] out. *)
Module Phrase.
Record t := mk {
  text : str;
  start : Z;
  end_ : Z;
  root : option str
}.
End Phrase.
Abbreviation Phrase := Phrase.t.

(** What the code uses of a loaded spaCy pipeline: its stopword set and,
    for a text, the tokens and noun chunks of the parsed document. *)
Module Spacy.
Record Token := mkToken { text : str; idx : Z; pos_ : str }.
Record Span := mkSpan {
  span_text : str;
  start_char : Z;
  end_char : Z;
  root : Token
}.
Record Doc := mkDoc { tokens : list Token; noun_chunks : list Span }.
Record Language := mkLanguage { stop_words : gset str; call : str -> Doc }.
End Spacy.

(** A cell of the data frame in a text column: [NaN] for a cell that the
    file leaves empty, as [pd.read_csv] gives it, or a value with the text
    that [str] returns for it.  [str_of] is [str] on a cell: [str] of NaN is
    "nan". *)
Module Csv.
Inductive Cell :=
  | Text (s : str)
  | NaN.

Definition str_of (cell : Cell) : str :=
  match cell with
  | Text s => s
  | NaN => py "nan"
  end.

(** A row of the data frame: [None] when the column is absent; for [id]
    the integer that [int] returns, or [Some None] when [int] raises on the
    cell, as it does on an empty one; for the other columns the cell. *)
Record Row := mkRow {
  id : option (option Z);
  term : option Cell;
  translation : option Cell;
  domain : option Cell
}.

(** A file: the group captured by the search for
    [terminologies_([a-z]+)\.csv] in its base name, if any, and the rows
    that [pd.read_csv] returns, or [None] when it raises. *)
Record File := mkFile {
  lang_match : option str;
  read_csv : option (list Row)
}.
End Csv.

(** [self.terminology_source], resolved against the file system: a file, or
    a directory with the names it lists.  A directory that [os.listdir]
    cannot list is not among the sources. *)
Inductive Source :=
  | SourceFile (f : Csv.File)
  | SourceDir (listing : list (str * Csv.File)).

Record TerminologyManager := mkManager {
  terminology_source : option Source;
  terms : gmap str Term;
  language : option str
}.

(** Insertion-ordered dictionaries with [str] keys. *)
Definition dict (V : Type) : Type := list (str * V).

Fixpoint dict_set {V} (d : dict V) (k : str) (v : V) : dict V :=
  match d with
  | [] => [(k, v)]
  | (k', v') :: d' =>
      if decide (k' = k) then (k', v) :: d' else (k', v') :: dict_set d' k v
  end.

Fixpoint dict_get {V} (d : dict V) (k : str) (default : V) : V :=
  match d with
  | [] => default
  | (k', v') :: d' => if decide (k' = k) then v' else dict_get d' k default
  end.

Definition dict_keys {V} (d : dict V) : list str := map fst d.

(** ** The monad of method bodies *)

Inductive exn := ValueError | OSError | IndexError.

Inductive outcome (A : Type) :=
  | Ok (a : A)
  | Raise (e : exn).
Arguments Ok {A} a.
Arguments Raise {A} e.

Definition Py (A : Type) : Type :=
  TerminologyManager -> outcome A * TerminologyManager.

Definition ret {A} (a : A) : Py A := fun self => (Ok a, self).

Definition raise {A} (e : exn) : Py A := fun self => (Raise e, self).

Definition bind {A B} (m : Py A) (k : A -> Py B) : Py B :=
  fun self =>
    match m self with
    | (Ok a, self') => k a self'
    | (Raise e, self') => (Raise e, self')
    end.

Notation "x <- m ;; k" := (bind m (fun x => k))
  (at level 100, m at next level, right associativity).

(** [try: m except Exception: handler]. *)
Definition try_except {A} (m : Py A) (handler : exn -> Py A) : Py A :=
  fun self =>
    match m self with
    | (Ok a, self') => (Ok a, self')
    | (Raise e, self') => handler e self'
    end.

(** A [for] loop over [l] whose body updates the local variables [acc]. *)
Fixpoint for_each {A B} (l : list A) (acc : B) (body : B -> A -> Py B) : Py B :=
  match l with
  | [] => ret acc
  | x :: l' => acc' <- body acc x ;; for_each l' acc' body
  end.

(** Reads and writes of the attributes of [self]. *)
Definition self_terminology_source : Py (option Source) :=
  fun self => (Ok (terminology_source self), self).

Definition self_terms : Py (gmap str Term) :=
  fun self => (Ok (terms self), self).

Definition self_language : Py (option str) :=
  fun self => (Ok (language self), self).

(** [self.terms[k] = v]. *)
Definition setitem_terms (k : str) (v : Term) : Py unit :=
  fun self =>
    (Ok tt, mkManager (terminology_source self) (<[k := v]> (terms self))
                      (language self)).

(** [self.language = l]. *)
Definition set_language (l : str) : Py unit :=
  fun self =>
    (Ok tt, mkManager (terminology_source self) (terms self) (Some l)).

(** [s[i]] for a non-negative [i]. *)
Definition getitem (s : str) (i : nat) : Py ascii :=
  match s !! i with
  | Some c => ret c
  | None => raise IndexError
  end.

(** [s.endswith(suffix)]. *)
Definition endswith (s suffix : str) : bool := startswith (rev suffix) (rev s).

(** [list.sort(key=lambda x: x['start'], reverse=True)]: descending by
    start offset and stable. *)
Fixpoint insert_by_start_desc (x : Phrase) (l : list Phrase) : list Phrase :=
  match l with
  | [] => [x]
  | y :: l' =>
      if Phrase.start y <=? Phrase.start x then x :: y :: l'
      else y :: insert_by_start_desc x l'
  end.

Fixpoint sort_by_start_desc (l : list Phrase) : list Phrase :=
  match l with
  | [] => []
  | x :: l' => insert_by_start_desc x (sort_by_start_desc l')
  end.

(** ** The module and the manager's methods *)

Section Manager.

(** The module-level state: [Some] pipeline when [spacy.load] succeeded and
    [None] when it raised, in which case [SPACY_AVAILABLE] is [False] and
    [STOPWORDS] is [set()]. *)
Variable nlp : option Spacy.Language.

Definition SPACY_AVAILABLE : bool :=
  match nlp with Some _ => true | None => false end.

Definition STOPWORDS : gset str :=
  match nlp with
  | Some pipeline => Spacy.stop_words pipeline
  | None => ∅
  end.

(** Lines 76-90: the body of the loop over the rows.  [int] may raise;
    the default id is read from the store as it is when the row is
    reached. *)
Definition _load_row (language : str) (row : Csv.Row) : Py unit :=
  ts <- self_terms ;;
  term_id <-
    match default (Some (Z.of_nat (size ts) + 1)) (Csv.id row) with
    | Some n => ret n
    | None => raise ValueError
    end ;;
  let term_text :=
    strip (lower (Csv.str_of (default (Csv.Text []) (Csv.term row)))) in
  let translation := Csv.str_of (default (Csv.Text []) (Csv.translation row)) in
  let domain := Csv.str_of (default (Csv.Text (py "general")) (Csv.domain row)) in
  match term_text, translation with
  | _ :: _, _ :: _ =>
      let term_obj :=
        Term.mk term_id term_text translation domain language None in
      setitem_terms term_text term_obj
  | _, _ => ret tt
  end.

Definition _load_single_file (csv : Csv.File) : Py unit :=
  try_except
    (match Csv.read_csv csv with
     | None => raise OSError
     | Some df =>
         let language :=
           match Csv.lang_match csv with
           | Some group1 => lower group1
           | None => py "en"
           end in
         _ <- for_each df tt (fun _ row => _load_row language row) ;;
         set_language language
     end)
    (fun e => ret tt).

Definition _load_terminology : Py unit :=
  source <- self_terminology_source ;;
  match source with
  | None => ret tt
  | Some (SourceDir listing) =>
      let csv_files := filter (fun f => endswith (fst f) (py ".csv") = true) listing in
      for_each csv_files tt (fun _ csv_file => _load_single_file (snd csv_file))
  | Some (SourceFile csv) => _load_single_file csv
  end.

(** [TerminologyManager(terminology_source)]. *)
Definition __init__ (terminology_source : option Source) : TerminologyManager :=
  let self := mkManager terminology_source ∅ None in
  match terminology_source with
  | Some _ => snd (_load_terminology self)
  | None => self
  end.

Definition _remove_stopwords (phrase : str) : str :=
  match nlp with
  | None =>
      let words := split (lower phrase) in
      let filtered_words := filter (fun w => w ∉ STOPWORDS) words in
      join (py " ") filtered_words
  | Some pipeline =>
      let doc := Spacy.call pipeline (lower phrase) in
      let cleaned_tokens :=
        filter (fun w => w ∉ STOPWORDS) (map Spacy.text (Spacy.tokens doc)) in
      strip (join (py " ") cleaned_tokens)
  end.

Definition _extract_noun_phrases (text : str) : Py (list Phrase) :=
  match nlp with
  | None =>
      let words := findall_words (lower text) in
      ts <- self_terms ;;
      ret (map (fun word =>
                  Phrase.mk word (find (lower text) word)
                            (find (lower text) word + Z.of_nat (length word))
                            None)
               (filter (fun word => is_Some (ts !! word)) words))
  | Some pipeline =>
      let doc := Spacy.call pipeline text in
      let noun_phrases :=
        map (fun chunk =>
               Phrase.mk (Spacy.span_text chunk) (Spacy.start_char chunk)
                         (Spacy.end_char chunk)
                         (Some (Spacy.text (Spacy.root chunk))))
            (Spacy.noun_chunks doc) in
      let covered_spans : gset Z :=
        foldl (fun covered np =>
                 covered ∪ list_to_set
                   (seqZ (Phrase.start np) (Phrase.end_ np - Phrase.start np)))
              ∅ noun_phrases in
      ret (noun_phrases ++
           map (fun token =>
                  Phrase.mk (Spacy.text token) (Spacy.idx token)
                            (Spacy.idx token + Z.of_nat (length (Spacy.text token)))
                            (Some (Spacy.text token)))
               (filter (fun token =>
                          Spacy.pos_ token ∈ [py "PROPN"; py "NOUN"]
                          ∧ Spacy.idx token ∉ covered_spans)
                       (Spacy.tokens doc)))
  end.

Definition _find_matching_term (phrase : str) : Py (option Term) :=
  let phrase_lower := strip (lower phrase) in
  ts <- self_terms ;;
  match ts !! phrase_lower with
  | Some term_obj => ret (Some term_obj)
  | None =>
      let cleaned_phrase := _remove_stopwords phrase_lower in
      ts <- self_terms ;;
      match cleaned_phrase, ts !! cleaned_phrase with
      | _ :: _, Some term_obj => ret (Some term_obj)
      | _, _ => ret None
      end
  end.

(** The f-string [f"<{term_obj.id}>"]. *)
Definition placeholder_of (term_obj : Term) : str :=
  py "<" ++ str_of_int (Term.id term_obj) ++ py ">".

(** Lines 198-202: the placeholder takes the place of the characters
    between the offsets of the phrase. *)
Definition splice (preprocessed_text : str) (phrase : Phrase)
    (placeholder : str) : str :=
  slice_to preprocessed_text (Phrase.start phrase)
    ++ placeholder
    ++ slice_from preprocessed_text (Phrase.end_ phrase).

(** Lines 177-186: the extracted phrases that resolve to a term, sorted by
    start offset, rightmost first. *)
Definition matching_phrases (text : str) : Py (list Phrase) :=
  noun_phrases <- _extract_noun_phrases text ;;
  matching <- for_each noun_phrases [] (fun matching phrase =>
                found <- _find_matching_term (Phrase.text phrase) ;;
                match found with
                | Some _ => ret (matching ++ [phrase])
                | None => ret matching
                end) ;;
  ret (sort_by_start_desc matching).

Definition preprocess_text (text : str) : Py (str * dict Term * dict str) :=
  ts <- self_terms ;;
  if Nat.eqb (size ts) 0 then ret (text, [], [])
  else
    matching <- matching_phrases text ;;
    for_each matching (text, [], []) (fun locals phrase =>
      let '(preprocessed_text, replacements, original_cases) := locals in
      found <- _find_matching_term (Phrase.text phrase) ;;
      match found with
      | Some term_obj =>
          let placeholder := placeholder_of term_obj in
          ret (splice preprocessed_text phrase placeholder,
               dict_set replacements placeholder term_obj,
               dict_set original_cases placeholder (Phrase.text phrase))
      | None => ret locals
      end).

Definition postprocess_text (text : str) (replacements : dict Term)
    (original_cases : dict str) : Py str :=
  for_each replacements text (fun result item =>
    let '(placeholder, term_obj) := item in
    let original_text := dict_get original_cases placeholder [] in
    let translation := Term.translation term_obj in
    translation <-
      match original_text with
      | [] => ret translation
      | _ :: _ =>
          if isupper original_text then ret (upper translation)
          else if istitle original_text then ret (capitalize translation)
          else
            first <- getitem original_text 0 ;;
            if Char.isupper first then ret (capitalize translation)
            else ret translation
      end ;;
    ret (replace result placeholder translation)).

Definition get_terms : Py (gmap str Term) := self_terms.

(** [get_language]: the language of the last loaded file, ["en"] if none. *)
Definition get_language : Py str :=
  l <- self_language ;;
  match l with
  | Some l => ret l
  | None => ret (py "en")
  end.

End Manager.

(** ** Views of the embedding used in the statements *)

(** [m] run on [self] raises nothing, returns [a] and leaves [self] as it
    was. *)
Definition returns {A} (m : Py A) (self : TerminologyManager) (a : A) : Prop :=
  m self = (Ok a, self).

(** [s] occurs in [t]. *)
Definition substring (s t : str) : Prop := exists a b, t = a ++ s ++ b.

(** The characters [text[start:end]] a phrase points at, for offsets that
    are not negative. *)
Definition span_chars (text : str) (phrase : Phrase) : str :=
  slice_from (slice_to text (Phrase.end_ phrase)) (Phrase.start phrase).

(** The value of a method that raises nothing. *)
Definition value {A} (m : Py A) (self : TerminologyManager) (d : A) : A :=
  match fst (m self) with
  | Ok a => a
  | Raise _ => d
  end.

(** The term a phrase resolves to, as [_find_matching_term] computes it. *)
Definition resolve (nlp : option Spacy.Language) (self : TerminologyManager)
    (phrase : str) : option Term :=
  value (_find_matching_term nlp phrase) self None.

(** The tokens bound to [placeholder] at line 195, in the order of the
    loop of lines 192-205. *)
Definition generated_placeholders (nlp : option Spacy.Language)
    (self : TerminologyManager) (text : str) : list str :=
  omap (fun phrase => placeholder_of <$> resolve nlp self (Phrase.text phrase))
       (value (matching_phrases nlp text) self []).

(** Lines 192-205 for one phrase, on the local variables
    [(preprocessed_text, replacements, original_cases)]. *)
Definition encode_phrase (nlp : option Spacy.Language)
    (self : TerminologyManager) (locals : str * dict Term * dict str)
    (phrase : Phrase) : str * dict Term * dict str :=
  match resolve nlp self (Phrase.text phrase) with
  | Some term_obj =>
      (splice locals.1.1 phrase (placeholder_of term_obj),
       dict_set locals.1.2 (placeholder_of term_obj) term_obj,
       dict_set locals.2 (placeholder_of term_obj) (Phrase.text phrase))
  | None => locals
  end.

(** The case rule of the restorer, in three buckets.  [restored_as_stated]
    takes the middle bucket as the specification words it: the original is
    title case, or only its first character is uppercase, and then the
    leading character of the translation is capitalized.  [restored] takes
    it as: the original is title case, or its first character is uppercase,
    and then the translation is capitalized as [str.capitalize] does. *)
Definition first_isupper (s : str) : bool :=
  match s with
  | [] => false
  | c :: _ => Char.isupper c
  end.




Definition restored (original_text translation : str) : str :=
  if isupper original_text then upper translation
  else if (istitle original_text || first_isupper original_text)%bool
       then capitalize translation
       else translation.

(** One turn of the loop of [postprocess_text], as the case rule puts it. *)
Definition restore_item (original_cases : dict str) (result : str)
    (item : str * Term) : str :=
  replace result item.1
          (restored (dict_get original_cases item.1 []) (Term.translation item.2)).

(** [sub] occurs in [s] at offset [n]. *)
Definition occurs_at (sub s : str) (n : nat) : Prop :=
  exists a b, s = a ++ sub ++ b /\ length a = n.

(** A run of [runs p s]: not empty, is made of characters of the class and occurs
    in the string. *)
Definition is_run (p : ascii -> bool) (s w : str) : Prop :=
  w <> [] /\ forallb p w = true /\ substring w s.

(** What the code relies on from a spaCy pipeline when it takes the text of
    a chunk or of a token for a piece of the input: both occur in the text
    that was parsed.  Nothing is asked of the fallback. *)
Definition spans_in_text (nlp : option Spacy.Language) : Prop :=
  match nlp with
  | None => True
  | Some pipeline =>
      forall text,
        Forall (fun chunk => substring (Spacy.span_text chunk) text)
               (Spacy.noun_chunks (Spacy.call pipeline text))
        /\ Forall (fun token => substring (Spacy.text token) text)
                  (Spacy.tokens (Spacy.call pipeline text))
  end.

(** ** Rows *)

(** The language a file is loaded with. *)
Definition language_of (csv : Csv.File) : str :=
  match Csv.lang_match csv with
  | Some group1 => lower group1
  | None => py "en"
  end.

(** The key of a row: its term, lowercased and trimmed. *)
Definition normalized_term (row : Csv.Row) : str :=
  strip (lower (Csv.str_of (default (Csv.Text []) (Csv.term row)))).

(** A row is kept when its key and its translation are not empty. *)
Definition kept (row : Csv.Row) : Prop :=
  normalized_term row <> []
  /\ Csv.str_of (default (Csv.Text []) (Csv.translation row)) <> [].

(** [int] raises nothing on the id of the row. *)
Definition converts (row : Csv.Row) : Prop := Csv.id row <> Some None.

(** The record built for a kept row when the store holds [n] terms. *)
Definition term_of_row (language : str) (n : nat) (row : Csv.Row) : Term :=
  Term.mk (match Csv.id row with
           | Some (Some i) => i
           | _ => Z.of_nat n + 1
           end)
          (normalized_term row)
          (Csv.str_of (default (Csv.Text []) (Csv.translation row)))
          (Csv.str_of (default (Csv.Text (py "general")) (Csv.domain row)))
          language None.

(** The manager after the loop over [rows], run from [self]. *)
Definition after_rows (language : str) (rows : list Csv.Row)
    (self : TerminologyManager) : TerminologyManager :=
  snd (for_each rows tt (fun _ row => _load_row language row) self).

(** The manager after a kept row is stored. *)
Definition with_row (lang : str) (row : Csv.Row)
    (self : TerminologyManager) : TerminologyManager :=
  mkManager (terminology_source self)
            (<[normalized_term row :=
                 term_of_row lang (size (terms self)) row]> (terms self))
            (language self).

(** ** Placeholder tokens *)

(** The wire format of a placeholder: ["<"], a decimal integer, [">"]. *)
Definition is_placeholder (k : str) : Prop :=
  exists n : Z, k = py "<" ++ str_of_int n ++ py ">".

(** A token between angle brackets with none inside. *)
Definition bracketed (k : str) : Prop :=
  exists body,
    k = "<"%char :: body ++ [">"%char]
    /\ ("<"%char ∉ body) /\ (">"%char ∉ body).

(** The pieces of a string, for checking a text piece by piece: the
    prefixes of its suffixes. *)
Fixpoint inits (t : str) : list str :=
  [] :: match t with
        | [] => []
        | c :: t' => map (cons c) (inits t')
        end.

Fixpoint tails (t : str) : list str :=
  t :: match t with
       | [] => []
       | _ :: t' => tails t'
       end.

Definition substrings (t : str) : list str := flat_map inits (tails t).

(** ** Spans *)

(** Descending start offsets: [q] may come after [p]. *)
Definition start_ge (p q : Phrase) : Prop := Phrase.start q <= Phrase.start p.

(** The offsets of a phrase lie in the text. *)
Definition within (text : str) (p : Phrase) : Prop :=
  0 <= Phrase.start p <= Phrase.end_ p
  /\ Phrase.end_ p <= Z.of_nat (length text).

Definition disjoint (p q : Phrase) : Prop :=
  Phrase.end_ p <= Phrase.start q \/ Phrase.end_ q <= Phrase.start p.

Definition non_overlapping (spans : list Phrase) : Prop :=
  forall p q, p ∈ spans -> q ∈ spans -> p <> q -> disjoint p q.

(** [q] ends where [p] starts or before: in a list sorted by this relation
    every span lies to the left of the spans before it. *)
Definition apart (p q : Phrase) : Prop := Phrase.end_ q <= Phrase.start p.

(** The token that takes the place of a matched phrase. *)
Definition token_of (nlp : option Spacy.Language) (self : TerminologyManager)
    (phrase : Phrase) : str :=
  match resolve nlp self (Phrase.text phrase) with
  | Some term_obj => placeholder_of term_obj
  | None => []
  end.

(** The characters [pos..upto) of the text with every span of [ascending],
    a list of spans from left to right, replaced by its token. *)
Fixpoint substituted (text : str) (token : Phrase -> str) (pos upto : nat)
    (ascending : list Phrase) : str :=
  match ascending with
  | [] => drop pos (take upto text)
  | p :: rest =>
      drop pos (take (Z.to_nat (Phrase.start p)) text)
        ++ token p
        ++ substituted text token (Z.to_nat (Phrase.end_ p)) upto rest
  end.

(** ** The store *)

(** What loading keeps of every entry of the store: the key is not empty,
    is lowercase and trimmed, is the [term] of the record, and the
    translation is not empty. *)
Definition store_ok (ts : gmap str Term) : Prop :=
  forall key term_obj,
    ts !! key = Some term_obj ->
    key <> []
    /\ strip (lower key) = key
    /\ Term.term term_obj = key
    /\ Term.translation term_obj <> [].

(** ** Concrete stores and inputs *)

Module Demo.

(** The store of the end-to-end scenario: one file with the record
    [{id: 1, term: "server", translation: "servidor"}]. *)
Definition server_row : Csv.Row :=
  Csv.mkRow (Some (Some 1)) (Some (Csv.Text (py "server")))
            (Some (Csv.Text (py "servidor"))) None.

Definition server_csv : Csv.File :=
  Csv.mkFile (Some (py "es")) (Some [server_row]).

Definition manager : TerminologyManager := __init__ (Some (SourceFile server_csv)).

(** A manager built without a source: the store holds no term. *)
Definition empty_manager : TerminologyManager := __init__ None.

Definition database : Term :=
  Term.mk 1 (py "database") (py "base de datos") (py "general") (py "es") None.

(** A directory with one file per language, each numbering its terms from
    1, next to a file that is not a CSV file. *)
Definition spanish_csv : Csv.File :=
  Csv.mkFile (Some (py "es"))
    (Some [Csv.mkRow (Some (Some 1)) (Some (Csv.Text (py "Server")))
              (Some (Csv.Text (py "servidor"))) None]).

Definition french_csv : Csv.File :=
  Csv.mkFile (Some (py "fr"))
    (Some [Csv.mkRow (Some (Some 1)) (Some (Csv.Text (py "Router")))
              (Some (Csv.Text (py "routeur"))) None]).

Definition two_languages : TerminologyManager :=
  __init__ (Some (SourceDir [(py "terminologies_es.csv", spanish_csv);
                             (py "notes.txt", Csv.mkFile None None);
                             (py "terminologies_fr.csv", french_csv)])).

(** Three rows: the first with an id, the second for the same key without
    an id and with another spelling of the term, the third with a blank
    term. *)
Definition first_row : Csv.Row :=
  Csv.mkRow (Some (Some 7)) (Some (Csv.Text (py "server")))
            (Some (Csv.Text (py "servidor"))) None.

Definition second_row : Csv.Row :=
  Csv.mkRow None (Some (Csv.Text (py "  SERVER ")))
            (Some (Csv.Text (py "servidor web")))
            (Some (Csv.Text (py "it"))).

Definition empty_row : Csv.Row :=
  Csv.mkRow (Some (Some 9)) (Some (Csv.Text (py "   ")))
            (Some (Csv.Text (py "servidor"))) None.

(** Spans of "The Server is down" that do not overlap. *)
Definition span_the : Phrase := Phrase.mk (py "The") 0 3 None.
Definition span_server : Phrase := Phrase.mk (py "Server") 4 10 None.

(** Two files of a directory with a record for the same term. *)
Definition old_csv : Csv.File :=
  Csv.mkFile None
    (Some [Csv.mkRow (Some (Some 1)) (Some (Csv.Text (py "server")))
              (Some (Csv.Text (py "servidor"))) None]).

Definition new_csv : Csv.File :=
  Csv.mkFile (Some (py "fr"))
    (Some [Csv.mkRow (Some (Some 5)) (Some (Csv.Text (py "Server ")))
              (Some (Csv.Text (py "serveur"))) None]).

(** Two rows without an id. *)
Definition router_row : Csv.Row :=
  Csv.mkRow None (Some (Csv.Text (py "Router")))
            (Some (Csv.Text (py "routeur"))) None.

Definition switch_row : Csv.Row :=
  Csv.mkRow None (Some (Csv.Text (py "switch")))
            (Some (Csv.Text (py "commutateur"))) None.

(** A parse of "The Server is down today": one noun chunk, "The Server",
    and the nouns "Server" and "today". *)
Definition pipeline : Spacy.Language :=
  Spacy.mkLanguage
    {[py "the"; py "is"]}
    (fun _ =>
       Spacy.mkDoc
         [Spacy.mkToken (py "The") 0 (py "DET");
          Spacy.mkToken (py "Server") 4 (py "NOUN");
          Spacy.mkToken (py "is") 11 (py "AUX");
          Spacy.mkToken (py "down") 14 (py "ADV");
          Spacy.mkToken (py "today") 19 (py "NOUN")]
         [Spacy.mkSpan (py "The Server") 0 10
                       (Spacy.mkToken (py "Server") 4 (py "NOUN"))]).

(** The record that [server_csv] stores, and the span of "server" in
    "the server is down". *)
Definition server_term : Term :=
  Term.mk 1 (py "server") (py "servidor") (py "general") (py "es") None.

Definition span_lower_server : Phrase := Phrase.mk (py "server") 4 10 None.


(** A file without an id column in which a term comes twice: the default
    id, taken from the size of the store, is 3 for the third row and for
    the fourth. *)
Definition counter_csv : Csv.File :=
  Csv.mkFile (Some (py "es"))
    (Some [Csv.mkRow None (Some (Csv.Text (py "router")))
                     (Some (Csv.Text (py "enrutador"))) None;
           Csv.mkRow None (Some (Csv.Text (py "switch")))
                     (Some (Csv.Text (py "conmutador"))) None;
           Csv.mkRow None (Some (Csv.Text (py "router")))
                     (Some (Csv.Text (py "enrutador"))) None;
           Csv.mkRow None (Some (Csv.Text (py "server")))
                     (Some (Csv.Text (py "servidor"))) None]).

Definition counter_manager : TerminologyManager :=
  __init__ (Some (SourceFile counter_csv)).

Definition router_term : Term :=
  Term.mk 3 (py "router") (py "enrutador") (py "general") (py "es") None.

(** A file with a row whose translation cell is empty and a row whose term
    cell is empty. *)
Definition missing_cells_csv : Csv.File :=
  Csv.mkFile (Some (py "fr"))
    (Some [Csv.mkRow (Some (Some 1)) (Some (Csv.Text (py "server")))
                     (Some Csv.NaN) None;
           Csv.mkRow (Some (Some 2)) (Some Csv.NaN)
                     (Some (Csv.Text (py "routeur"))) None]).

(** The spans of "router" and "server" in "the router and the server". *)
Definition span_router : Phrase := Phrase.mk (py "router") 4 10 None.
Definition span_far_server : Phrase := Phrase.mk (py "server") 19 25 None.

End Demo.

(** ** The monad: running pure computations *)

Lemma returns_ret {A} (a : A) self : returns (ret a) self a.
Proof. reflexivity. Qed.

Lemma returns_bind {A B} (m : Py A) (k : A -> Py B) self a b :
  returns m self a -> returns (k a) self b -> returns (bind m k) self b.
Proof. unfold returns, bind. intros -> ->. reflexivity. Qed.

Lemma returns_self_terms self : returns self_terms self (terms self).
Proof. reflexivity. Qed.

Lemma returns_for_each {A B} (l : list A) (body : B -> A -> Py B)
    (f : B -> A -> B) self :
  (forall acc x, x ∈ l -> returns (body acc x) self (f acc x)) ->
  forall acc, returns (for_each l acc body) self (foldl f acc l).
Proof.
  induction l as [|x l IH]; intros Hbody acc; simpl.
  - apply returns_ret.
  - eapply returns_bind.
    + apply Hbody. left.
    + apply IH. intros acc' y Hy. apply Hbody. right. exact Hy.
Qed.

Lemma returns_value {A} (m : Py A) self a d :
  returns m self a -> value m self d = a.
Proof. unfold returns, value. intros ->. reflexivity. Qed.

Lemma returns_unchanged {A} (m : Py A) self a :
  returns m self a -> snd (m self) = self.
Proof. unfold returns. intros ->. reflexivity. Qed.

Lemma returns_inj {A} (m : Py A) self a b :
  returns m self a -> returns m self b -> a = b.
Proof. unfold returns. intros -> [=]. assumption. Qed.

Lemma returns_some_value {A} (m : Py A) self d :
  (exists a, returns m self a) -> returns m self (value m self d).
Proof. intros [a Ha]. rewrite (returns_value m self a d Ha). exact Ha. Qed.

(** ** Python strings: occurrences, [find] and word runs *)

Lemma startswith_prefix sub s : startswith sub s = true <-> exists b, s = sub ++ b.
Proof.
  revert s. induction sub as [|a sub IH]; intros s; simpl.
  - split; [eauto|done].
  - destruct s as [|c s].
    + split; [done|]. intros [b Hb]. discriminate Hb.
    + destruct (decide (a = c)) as [->|Hne].
      * rewrite IH. split; intros [b Hb]; exists b; simpl in *; congruence.
      * split; [done|]. intros [b Hb]. simpl in Hb. congruence.
Qed.

Lemma startswith_occurs_at sub s : startswith sub s = true <-> occurs_at sub s 0.
Proof.
  rewrite startswith_prefix. split.
  - intros [b ->]. by exists [], b.
  - intros (a & b & -> & Ha). apply nil_length_inv in Ha as ->. by exists b.
Qed.

Lemma occurs_at_cons sub c s n : occurs_at sub (c :: s) (S n) <-> occurs_at sub s n.
Proof.
  split.
  - intros (a & b & Heq & Ha). destruct a as [|c' a]; [done|].
    simpl in *. exists a, b. split; congruence.
  - intros (a & b & -> & Ha). exists (c :: a), b. simpl. by rewrite Ha.
Qed.

Lemma occurs_at_nil sub n : occurs_at sub [] n -> sub = [] /\ n = 0%nat.
Proof.
  intros (a & b & Heq & Ha). symmetry in Heq.
  apply app_eq_nil in Heq as [-> Heq]. apply app_eq_nil in Heq as [-> _].
  simpl in Ha. done.
Qed.

Lemma occurs_at_substring sub s n : occurs_at sub s n -> substring sub s.
Proof. intros (a & b & -> & _). by exists a, b. Qed.

Lemma substring_occurs_at sub s : substring sub s -> exists n, occurs_at sub s n.
Proof. intros (a & b & ->). exists (length a), a, b. done. Qed.

(** [find_from] returns the offset of the first occurrence, counted from
    [i], or -1 when there is none. *)
Lemma find_from_first sub s i :
  (find_from sub s i = -1 /\ forall n, ~ occurs_at sub s n)
  \/ (exists n : nat, find_from sub s i = i + Z.of_nat n
        /\ occurs_at sub s n
        /\ forall m, occurs_at sub s m -> (n <= m)%nat).
Proof.
  revert i. induction s as [|c s IH]; intros i; simpl.
  - destruct (startswith sub []) eqn:E.
    + right. exists 0%nat. apply startswith_occurs_at in E.
      repeat split; [lia|done|lia].
    + left. split; [done|]. intros n Hn.
      destruct (occurs_at_nil _ _ Hn) as [-> ->]. done.
  - destruct (startswith sub (c :: s)) eqn:E.
    + right. exists 0%nat. apply startswith_occurs_at in E.
      repeat split; [lia|done|lia].
    + assert (~ occurs_at sub (c :: s) 0) as H0.
      { rewrite <- startswith_occurs_at. congruence. }
      destruct (IH (i + 1)) as [[Hf Hnone]|(n & Hf & Hocc & Hmin)].
      * left. split; [done|]. intros [|n] Hn; [done|].
        apply occurs_at_cons in Hn. by apply (Hnone n).
      * right. exists (S n). repeat split.
        -- lia.
        -- by apply occurs_at_cons.
        -- intros [|m] Hm; [done|]. apply occurs_at_cons, Hmin in Hm. lia.
Qed.

Lemma find_first s sub :
  substring sub s ->
  exists n : nat, find s sub = Z.of_nat n
    /\ occurs_at sub s n
    /\ forall m, occurs_at sub s m -> (n <= m)%nat.
Proof.
  intros Hsub. unfold find.
  destruct (find_from_first sub s 0) as [[_ Hnone]|(n & Hf & Hocc & Hmin)].
  - destruct (substring_occurs_at _ _ Hsub) as [n Hn]. by destruct (Hnone n).
  - exists n. repeat split; [lia|done|done].
Qed.

Lemma substring_cons sub c s : substring sub s -> substring sub (c :: s).
Proof. intros (a & b & ->). by exists (c :: a), b. Qed.

Lemma runs_scan_spec p s :
  forallb p (runs_scan p s).1 = true
  /\ (exists t, s = (runs_scan p s).1 ++ t)
  /\ Forall (is_run p s) (runs_scan p s).2.
Proof.
  induction s as [|c s (IHp & [t IHt] & IHrs)]; simpl.
  - repeat split; [by exists []|constructor].
  - destruct (runs_scan p s) as [run rs]. simpl in *.
    assert (Forall (is_run p (c :: s)) rs) as Hrs.
    { eapply Forall_impl; [exact IHrs|].
      intros w (? & ? & ?). repeat split; [done..|]. by apply substring_cons. }
    destruct (p c) eqn:Hc; simpl.
    + rewrite Hc, IHp. repeat split; [|done]. exists t. by rewrite IHt at 1.
    + repeat split; [by eexists|].
      destruct run as [|r run]; simpl; [done|].
      constructor; [|done].
      repeat split; [done|done|]. exists [c], t. by rewrite IHt at 1.
Qed.

Lemma runs_spec p s : Forall (is_run p s) (runs p s).
Proof.
  unfold runs. destruct (runs_scan_spec p s) as (Hp & [t Ht] & Hrs).
  destruct (runs_scan p s) as [run rs]. simpl in *.
  destruct run as [|r run]; simpl; [done|].
  constructor; [|done]. repeat split; [done|done|]. by exists [], t.
Qed.

(** ** The read-only methods return and leave the manager as it was *)

Section Runs.

Variable nlp : option Spacy.Language.
Variable self : TerminologyManager.

Lemma _find_matching_term_returns phrase :
  returns (_find_matching_term nlp phrase) self (resolve nlp self phrase).
Proof.
  apply returns_some_value.
  unfold _find_matching_term, returns, bind, self_terms, ret.
  destruct (terms self !! strip (lower phrase)) as [t|]; [by eexists|].
  destruct (_remove_stopwords nlp (strip (lower phrase))) as [|c w]; [by eexists|].
  destruct (terms self !! (c :: w)); by eexists.
Qed.

Lemma resolve_unfold phrase :
  resolve nlp self phrase =
  match terms self !! strip (lower phrase) with
  | Some term_obj => Some term_obj
  | None =>
      match _remove_stopwords nlp (strip (lower phrase)) with
      | [] => None
      | c :: w => terms self !! (c :: w)
      end
  end.
Proof.
  unfold resolve, value, _find_matching_term, bind, self_terms, ret.
  destruct (terms self !! strip (lower phrase)) as [t|]; [done|].
  destruct (_remove_stopwords nlp (strip (lower phrase))) as [|c w]; [done|].
  by destruct (terms self !! (c :: w)).
Qed.

Lemma _extract_noun_phrases_returns text :
  returns (_extract_noun_phrases nlp text) self
          (value (_extract_noun_phrases nlp text) self []).
Proof.
  apply returns_some_value.
  unfold _extract_noun_phrases. destruct nlp; by eexists.
Qed.

Lemma collect_matching (P : Phrase -> bool) l acc :
  foldl (fun matching phrase => if P phrase then matching ++ [phrase] else matching)
        acc l
  = acc ++ List.filter P l.
Proof.
  revert acc. induction l as [|x l IH]; intros acc; simpl.
  - by rewrite app_nil_r.
  - rewrite IH. destruct (P x); [|done]. by rewrite <- app_assoc.
Qed.

Lemma matching_phrases_returns text :
  returns (matching_phrases nlp text) self
    (sort_by_start_desc
       (List.filter (fun phrase => bool_decide (is_Some (resolve nlp self (Phrase.text phrase))))
                    (value (_extract_noun_phrases nlp text) self []))).
Proof.
  unfold matching_phrases.
  eapply returns_bind; [apply _extract_noun_phrases_returns|].
  eapply returns_bind.
  - apply (returns_for_each _ _
      (fun matching phrase =>
         if bool_decide (is_Some (resolve nlp self (Phrase.text phrase)))
         then matching ++ [phrase] else matching)).
    intros acc x _.
    eapply returns_bind; [apply _find_matching_term_returns|].
    destruct (resolve nlp self (Phrase.text x)) as [t|]; apply returns_ret.
  - rewrite collect_matching. apply returns_ret.
Qed.

Lemma preprocess_text_returns text :
  returns (preprocess_text nlp text) self
    (if Nat.eqb (size (terms self)) 0 then (text, [], [])
     else foldl (encode_phrase nlp self) (text, [], [])
                (value (matching_phrases nlp text) self [])).
Proof.
  unfold preprocess_text.
  eapply returns_bind; [apply returns_self_terms|].
  destruct (Nat.eqb (size (terms self)) 0); [apply returns_ret|].
  eapply returns_bind.
  - apply returns_some_value. eexists. apply matching_phrases_returns.
  - apply returns_for_each. intros [[w r] o] x _.
    eapply returns_bind; [apply _find_matching_term_returns|].
    unfold encode_phrase. destruct (resolve nlp self (Phrase.text x)); apply returns_ret.
Qed.

End Runs.

Lemma resolve_empty_store nlp self phrase :
  terms self = ∅ -> resolve nlp self phrase = None.
Proof.
  intros Hempty. rewrite resolve_unfold, Hempty, lookup_empty.
  destruct (_remove_stopwords nlp (strip (lower phrase))); [done|].
  apply lookup_empty.
Qed.

Lemma postprocess_text_returns self text replacements original_cases :
  returns (postprocess_text text replacements original_cases) self
          (foldl (restore_item original_cases) text replacements).
Proof.
  unfold postprocess_text. apply returns_for_each.
  intros result [placeholder term_obj] _. unfold restore_item, restored. simpl.
  destruct (dict_get original_cases placeholder []) as [|c s] eqn:E.
  { apply returns_ret. }
  eapply returns_bind; [|apply returns_ret].
  destruct (isupper (c :: s)); [apply returns_ret|].
  destruct (istitle (c :: s)); [apply returns_ret|].
  simpl. unfold getitem. simpl.
  eapply returns_bind; [apply returns_ret|].
  destruct (Char.isupper c); apply returns_ret.
Qed.

(** ** Case-preserving restoration *)




(** ** Empty store *)

(** C5.  With no term in the store, [preprocess_text] returns the text as it
    is with both mappings empty, and [postprocess_text] with these empty
    mappings returns its text as it is. *)
Theorem empty_store_identity nlp self text :
  terms self = ∅ ->
  returns (preprocess_text nlp text) self (text, [], [])
  /\ returns (postprocess_text text [] []) self text.
Proof.
  intros Hempty. split.
  - pose proof (preprocess_text_returns nlp self text) as H.
    rewrite Hempty, map_size_empty in H. exact H.
  - apply (postprocess_text_returns self text [] []).
Qed.

Lemma empty_store_identity_witness :
  returns (preprocess_text None (py "The Server is down")) Demo.empty_manager
          (py "The Server is down", [], [])
  /\ returns (postprocess_text (py "The Server is down") [] [])
             Demo.empty_manager (py "The Server is down").
Proof.
  apply (empty_store_identity None Demo.empty_manager (py "The Server is down")).
  reflexivity.
Defined.

(** ** The store is read-only after loading *)

(** C9.  [preprocess_text] and [postprocess_text] leave the manager, hence
    the store and every [Term] in it, as they found it. *)
Theorem term_store_read_only nlp self text replacements original_cases :
  snd (preprocess_text nlp text self) = self
  /\ snd (postprocess_text text replacements original_cases self) = self
  /\ terms (snd (preprocess_text nlp text self)) = terms self
  /\ terms (snd (postprocess_text text replacements original_cases self))
     = terms self.
Proof.
  pose proof (returns_unchanged _ _ _ (preprocess_text_returns nlp self text)) as H1.
  pose proof (returns_unchanged _ _ _
    (postprocess_text_returns self text replacements original_cases)) as H2.
  rewrite H1, H2. done.
Qed.

(** ** Stopword removal *)

Lemma filter_all {A} (P : A -> Prop) `{!forall x, Decision (P x)} (l : list A) :
  (forall x, P x) -> filter P l = l.
Proof.
  intros HP. induction l as [|x l IH]; [done|].
  rewrite filter_cons_True by apply HP. by rewrite IH.
Qed.

(** C7, the code at the failing input.  Without the spaCy model the stopword
    set is empty: [_remove_stopwords] keeps every word of the phrase, and
    "the server" does not resolve to the stored term "server". *)
Theorem fallback_remove_stopwords_keeps_all :
  (forall phrase,
     _remove_stopwords None phrase = join (py " ") (split (lower phrase)))
  /\ STOPWORDS None = ∅
  /\ _remove_stopwords None (py "the server") = py "the server"
  /\ resolve None Demo.manager (py "server") <> None
  /\ resolve None Demo.manager (py "the server") = None.
Proof.
  split; [|split; [|split; [|split]]].
  - intros phrase. unfold _remove_stopwords, STOPWORDS.
    f_equal. apply filter_all. set_solver.
  - reflexivity.
  - vm_compute. reflexivity.
  - rewrite resolve_unfold. vm_compute. discriminate.
  - rewrite resolve_unfold. vm_compute. reflexivity.
Qed.

(** ** Rightmost-first processing *)

Lemma insert_by_start_desc_perm x l : insert_by_start_desc x l ≡ₚ x :: l.
Proof.
  induction l as [|y l IH]; simpl; [done|].
  destruct (Phrase.start y <=? Phrase.start x); [done|].
  rewrite IH. apply Permutation_swap.
Qed.

Lemma sort_by_start_desc_perm l : sort_by_start_desc l ≡ₚ l.
Proof.
  induction l as [|x l IH]; simpl; [done|].
  by rewrite insert_by_start_desc_perm, IH.
Qed.

Lemma insert_by_start_desc_sorted x l :
  StronglySorted start_ge l -> StronglySorted start_ge (insert_by_start_desc x l).
Proof.
  induction l as [|y l IH]; simpl; intros Hl.
  - by repeat constructor.
  - apply StronglySorted_cons in Hl as [Hy Hl].
    destruct (Z.leb_spec (Phrase.start y) (Phrase.start x)) as [Hle|Hlt].
    + apply StronglySorted_cons. split.
      * constructor; [exact Hle|].
        eapply Forall_impl; [exact Hy|]. unfold start_ge. intros; lia.
      * apply StronglySorted_cons. by split.
    + apply StronglySorted_cons. split; [|by apply IH].
      rewrite insert_by_start_desc_perm. constructor; [|exact Hy].
      unfold start_ge. lia.
Qed.

Lemma sort_by_start_desc_sorted l : StronglySorted start_ge (sort_by_start_desc l).
Proof.
  induction l as [|x l IH]; simpl; [constructor|].
  by apply insert_by_start_desc_sorted.
Qed.

(** A splice leaves the text before the start offset as it was. *)
Lemma splice_take (w : str) d placeholder (k : nat) :
  Z.of_nat k <= Phrase.start d -> (k <= length w)%nat ->
  take k (splice w d placeholder) = take k w
  /\ (k <= length (splice w d placeholder))%nat.
Proof.
  intros Hk Hlen. unfold splice, slice_to, slice_index.
  destruct (Z.ltb_spec (Phrase.start d) 0) as [?|_]; [lia|].
  set (n := Nat.min (length w) (Z.to_nat (Phrase.start d))).
  assert (k <= n)%nat by lia.
  split.
  - rewrite take_app_le by (rewrite length_take; lia).
    rewrite take_take. f_equal. lia.
  - rewrite length_app, length_take. lia.
Qed.

Lemma encode_phrase_take nlp self locals d (k : nat) :
  Z.of_nat k <= Phrase.start d -> (k <= length locals.1.1)%nat ->
  take k (encode_phrase nlp self locals d).1.1 = take k locals.1.1
  /\ (k <= length (encode_phrase nlp self locals d).1.1)%nat.
Proof.
  intros Hk Hlen. unfold encode_phrase.
  destruct (resolve nlp self (Phrase.text d)); [|done].
  simpl. by apply splice_take.
Qed.

Lemma encode_all_take nlp self done (k : nat) :
  Forall (fun d => Z.of_nat k <= Phrase.start d) done ->
  forall locals, (k <= length locals.1.1)%nat ->
  take k (foldl (encode_phrase nlp self) locals done).1.1 = take k locals.1.1
  /\ (k <= length (foldl (encode_phrase nlp self) locals done).1.1)%nat.
Proof.
  induction 1 as [|d done Hd _ IH]; intros locals Hlen; simpl; [done|].
  destruct (encode_phrase_take nlp self locals d k Hd Hlen) as [Heq Hlen'].
  destruct (IH _ Hlen') as [IH1 IH2]. by rewrite IH1, Heq.
Qed.

(** The characters of a span depend on the text up to its end offset only. *)
Lemma span_chars_take (w text : str) q :
  within text q ->
  take (Z.to_nat (Phrase.end_ q)) w = take (Z.to_nat (Phrase.end_ q)) text ->
  (Z.to_nat (Phrase.end_ q) <= length w)%nat ->
  span_chars w q = span_chars text q.
Proof.
  intros [[H0 Hse] He] Htake Hlen. unfold span_chars.
  assert (slice_to w (Phrase.end_ q) = slice_to text (Phrase.end_ q)) as ->; [|done].
  unfold slice_to, slice_index.
  destruct (Z.ltb_spec (Phrase.end_ q) 0) as [?|_]; [lia|].
  rewrite !Nat.min_r by lia. exact Htake.
Qed.

Lemma substituted_snoc text token pos upto ascending d :
  substituted text token pos upto (ascending ++ [d])
  = substituted text token pos (Z.to_nat (Phrase.start d)) ascending
      ++ token d ++ drop (Z.to_nat (Phrase.end_ d)) (take upto text).
Proof.
  revert pos. induction ascending as [|p ascending IH]; intros pos; simpl.
  - done.
  - rewrite IH. by rewrite <- !app_assoc.
Qed.

(** A splice into a text that is the original up to [m], for a span that
    ends at [m] or before. *)
Lemma splice_before text (m : nat) suffix d placeholder :
  within text d -> Phrase.end_ d <= Z.of_nat m -> (m <= length text)%nat ->
  splice (take m text ++ suffix) d placeholder
  = take (Z.to_nat (Phrase.start d)) text
      ++ (placeholder ++ drop (Z.to_nat (Phrase.end_ d)) (take m text) ++ suffix).
Proof.
  intros [[H0 Hse] He] Hm Hlen. unfold splice, slice_to, slice_from, slice_index.
  destruct (Z.ltb_spec (Phrase.end_ d) 0) as [?|_]; [lia|].
  destruct (Z.ltb_spec (Phrase.start d) 0) as [?|_]; [lia|].
  rewrite length_app, length_take.
  rewrite !Nat.min_r by lia.
  rewrite take_app_le by (rewrite length_take; lia).
  rewrite take_take, Nat.min_l by lia.
  rewrite drop_app_le by (rewrite length_take; lia). done.
Qed.

Lemma encode_all_substituted nlp self text spans :
  Forall (within text) spans ->
  StronglySorted apart spans ->
  (forall d, d ∈ spans -> is_Some (resolve nlp self (Phrase.text d))) ->
  forall (m : nat) suffix replacements original_cases,
    (forall d, d ∈ spans -> Phrase.end_ d <= Z.of_nat m) ->
    (m <= length text)%nat ->
    (foldl (encode_phrase nlp self)
           (take m text ++ suffix, replacements, original_cases) spans).1.1
    = substituted text (token_of nlp self) 0 m (rev spans) ++ suffix.
Proof.
  induction spans as [|d spans IH];
    intros Hwithin Hsorted Hres m suffix replacements original_cases Hend Hm.
  { simpl. by rewrite drop_0. }
  apply Forall_cons in Hwithin as [Hd Hwithin].
  apply StronglySorted_cons in Hsorted as [Hleft Hsorted].
  destruct (Hres d) as [t Ht]; [left|].
  cbn [foldl]. unfold encode_phrase at 2. cbn [fst snd]. rewrite Ht.
  rewrite (splice_before text m suffix d) by (done || apply Hend; left).
  rewrite IH; try done.
  - assert (token_of nlp self d = placeholder_of t) as Htoken.
    { unfold token_of. by rewrite Ht. }
    cbn [rev]. rewrite substituted_snoc, Htoken. by rewrite <- !app_assoc.
  - intros d' Hd'. apply Hres. by right.
  - intros d' Hd'. rewrite Forall_forall in Hleft.
    pose proof (Hleft d' Hd') as Hap. unfold apart in Hap.
    destruct Hd as [[? ?] ?]. lia.
  - destruct Hd as [[? ?] ?]. lia.
Qed.

(** C4.  [preprocess_text] goes through the matched spans by descending
    start offset: the list it loops over is the extracted phrases that
    resolve, sorted rightmost first, and its result is the result of splicing
    in that order.  When the spans lie in the text and do not overlap, then
    after any number of splices every span still to be processed that starts
    before the span spliced last points at the characters it pointed at in
    the original text; and when every span lies to the left of the spans
    processed before it, the text returned is the original text with every
    span replaced by its token. *)
Theorem rightmost_first_keeps_offsets nlp self text :
  (forall spans,
     sort_by_start_desc spans ≡ₚ spans
     /\ StronglySorted start_ge (sort_by_start_desc spans))
  /\ exists matching,
       returns (matching_phrases nlp text) self matching
       /\ matching
          = sort_by_start_desc
              (List.filter
                 (fun phrase =>
                    bool_decide (is_Some (resolve nlp self (Phrase.text phrase))))
                 (value (_extract_noun_phrases nlp text) self []))
       /\ StronglySorted start_ge matching
       /\ (size (terms self) <> 0%nat ->
           returns (preprocess_text nlp text) self
                   (foldl (encode_phrase nlp self) (text, [], []) matching))
       /\ (Forall (within text) matching ->
           non_overlapping matching ->
           forall done p rest q,
             matching = done ++ p :: rest ->
             q ∈ rest ->
             Phrase.start q < Phrase.start p ->
             span_chars
               (foldl (encode_phrase nlp self) (text, [], []) (done ++ [p])).1.1 q
             = span_chars text q)
       /\ (Forall (within text) matching ->
           StronglySorted apart matching ->
           exists result,
             returns (preprocess_text nlp text) self result
             /\ result.1.1
                = substituted text (token_of nlp self) 0 (length text)
                              (rev matching)).
Proof.
  split.
  { intros spans.
    split; [apply sort_by_start_desc_perm|apply sort_by_start_desc_sorted]. }
  eexists. split; [apply matching_phrases_returns|]. split; [reflexivity|].
  split; [apply sort_by_start_desc_sorted|].
  pose proof (preprocess_text_returns nlp self text) as Hrun.
  rewrite (returns_value _ _ _ [] (matching_phrases_returns nlp self text)) in Hrun.
  set (matching := sort_by_start_desc _) in *.
  split; [|split].
  - intros Hsize. apply Nat.eqb_neq in Hsize. by rewrite Hsize in Hrun.
  - intros Hwithin Hdisj done p rest q Hsplit Hq Hlt.
    pose proof (sort_by_start_desc_sorted
                  (List.filter
                     (fun phrase =>
                        bool_decide (is_Some (resolve nlp self (Phrase.text phrase))))
                     (value (_extract_noun_phrases nlp text) self []))) as Hsorted.
    fold matching in Hsorted. rewrite Hsplit in Hsorted.
    assert (forall d, d ∈ done ++ p :: rest -> d ∈ matching) as Hin.
    { intros d Hd. by rewrite Hsplit. }
    assert (q ∈ matching) as Hqs.
    { apply Hin, elem_of_app. right. by right. }
    rewrite Forall_forall in Hwithin.
    pose proof (Hwithin q Hqs) as Hwq.
    assert (Forall (fun d => Z.of_nat (Z.to_nat (Phrase.end_ q)) <= Phrase.start d)
                   (done ++ [p])) as Hall.
    { apply Forall_forall. intros d Hd.
      assert (Phrase.start p <= Phrase.start d) as Hpd.
      { apply elem_of_app in Hd as [Hd|Hd].
        - apply (StronglySorted_app_1_elem_of start_ge done (p :: rest) d p Hsorted Hd).
          left.
        - apply list_elem_of_singleton in Hd as ->. lia. }
      assert (d ∈ matching) as Hds.
      { apply Hin. apply elem_of_app in Hd as [Hd|Hd]; apply elem_of_app;
          [by left|right].
        apply list_elem_of_singleton in Hd as ->. left. }
      pose proof (Hwithin d Hds) as Hwd. unfold within in Hwd, Hwq.
      destruct (Hdisj q d Hqs Hds) as [?|?]; [intros ->; lia|lia|lia]. }
    destruct (encode_all_take nlp self (done ++ [p]) _ Hall (text, [], []))
      as [Htake Hlen]; [unfold within in Hwq; simpl; lia|].
    by apply span_chars_take.
  - intros Hwithin Happart. eexists. split; [exact Hrun|].
    assert (forall d, d ∈ matching ->
                      is_Some (resolve nlp self (Phrase.text d))) as Hres.
    { intros d Hd. unfold matching in Hd. rewrite sort_by_start_desc_perm in Hd.
      apply list_elem_of_In, filter_In in Hd as [_ Hd].
      by apply bool_decide_eq_true in Hd. }
    destruct (Nat.eqb (size (terms self)) 0) eqn:E.
    + apply Nat.eqb_eq, map_size_empty_iff in E.
      destruct matching as [|d rest].
      * simpl. by rewrite drop_0, firstn_all.
      * destruct (Hres d) as [t Ht]; [left|].
        by rewrite resolve_empty_store in Ht.
    + pose proof (encode_all_substituted nlp self text matching Hwithin Happart
                    Hres (length text) [] [] []) as H.
      rewrite firstn_all, !app_nil_r in H. apply H; [|done].
      intros d Hd. rewrite Forall_forall in Hwithin.
      destruct (Hwithin d Hd) as [_ ?]. done.
Qed.

Lemma rightmost_first_keeps_offsets_witness :
  span_chars
    (foldl (encode_phrase None Demo.two_languages)
           (py "the router and the server", [], [])
           ([] ++ [Demo.span_far_server])).1.1
    Demo.span_router
  = span_chars (py "the router and the server") Demo.span_router.
Proof.
  destruct (proj2 (rightmost_first_keeps_offsets None Demo.two_languages
                     (py "the router and the server")))
    as (matching & Hret & _ & _ & _ & H & _).
  assert (matching = [Demo.span_far_server; Demo.span_router]) as ->.
  { eapply returns_inj; [exact Hret|]. vm_compute. reflexivity. }
  apply (H ltac:(repeat constructor; simpl; lia)
           ltac:(intros p q Hp Hq Hpq; unfold disjoint;
                 apply elem_of_cons in Hp as [->|Hp];
                   [|apply list_elem_of_singleton in Hp as ->];
                 (apply elem_of_cons in Hq as [->|Hq];
                    [|apply list_elem_of_singleton in Hq as ->]);
                 simpl; try lia; by destruct Hpq)
           [] Demo.span_far_server [Demo.span_router] Demo.span_router).
  - reflexivity.
  - apply list_elem_of_singleton. reflexivity.
  - simpl. lia.
Defined.

(** ** The fallback extractor *)

Lemma fallback_extract_returns self text :
  returns (_extract_noun_phrases None text) self
    (map (fun word =>
            Phrase.mk word (find (lower text) word)
                      (find (lower text) word + Z.of_nat (length word)) None)
         (filter (fun word => is_Some (terms self !! word))
                 (findall_words (lower text)))).
Proof. reflexivity. Qed.

Lemma findall_words_substring s w : w ∈ findall_words s -> is_run Char.isword s w.
Proof.
  intros Hw. pose proof (runs_spec Char.isword s) as H.
  rewrite Forall_forall in H. by apply H.
Qed.


Lemma fallback_repeats_first_offsets :
  returns (_extract_noun_phrases None (py "Server one, server two")) Demo.manager
          [Phrase.mk (py "server") 0 6 None; Phrase.mk (py "server") 0 6 None].
Proof. reflexivity. Qed.


(** ** Text without terms *)

Lemma isword_not_isspace c : Char.isword c = true -> Char.isspace c = false.
Proof. destruct c as [[] [] [] [] [] [] [] []]; vm_compute; congruence. Qed.

Lemma lstrip_no_space w :
  forallb (fun c => negb (Char.isspace c)) w = true -> lstrip w = w.
Proof.
  destruct w as [|c w]; simpl; [done|].
  intros H. apply andb_true_iff in H as [Hc _].
  by destruct (Char.isspace c).
Qed.

Lemma strip_no_space w :
  forallb (fun c => negb (Char.isspace c)) w = true -> strip w = w.
Proof.
  intros H. unfold strip, rstrip. rewrite (lstrip_no_space w H).
  rewrite lstrip_no_space; [apply rev_involutive|].
  rewrite forallb_forall in *. intros c Hc. apply H. by apply in_rev.
Qed.

Lemma strip_word w : forallb Char.isword w = true -> strip w = w.
Proof.
  intros H. apply strip_no_space.
  rewrite forallb_forall in *. intros c Hc.
  by rewrite (isword_not_isspace c (H c Hc)).
Qed.

(** A piece of the lowercased text is the lowercase of a piece of the text. *)
Lemma substring_lower w text :
  substring w (lower text) -> exists s, substring s text /\ lower s = w.
Proof.
  intros (a & b & Heq). unfold lower in Heq.
  apply map_eq_app in Heq as (a' & r & -> & _ & Hr).
  apply map_eq_app in Hr as (s & b' & -> & Hs & _).
  exists s. split; [by exists a', b'|done].
Qed.

Lemma filter_none {A} (P : A -> bool) l :
  (forall x, x ∈ l -> P x = false) -> List.filter P l = [].
Proof.
  induction l as [|x l IH]; intros H; simpl; [done|].
  rewrite (H x) by left. apply IH. intros y Hy. apply H. by right.
Qed.

(** When no extracted phrase resolves, nothing is replaced. *)
Lemma preprocess_text_no_match nlp self text :
  (forall p, p ∈ value (_extract_noun_phrases nlp text) self [] ->
             resolve nlp self (Phrase.text p) = None) ->
  returns (preprocess_text nlp text) self (text, [], []).
Proof.
  intros Hnone. pose proof (preprocess_text_returns nlp self text) as H.
  rewrite (returns_value _ _ _ [] (matching_phrases_returns nlp self text)) in H.
  rewrite filter_none in H.
  - simpl in H. by destruct (Nat.eqb (size (terms self)) 0).
  - intros p Hp. rewrite (Hnone p Hp). apply bool_decide_eq_false_2.
    by intros [? ?].
Qed.

(** X17.  For a text of ASCII characters: when no piece of the text
    resolves to a stored term, no candidate span matches and
    [preprocess_text] returns the text as it is, with both mappings empty.
    The spaCy pipeline, when there is one, is asked to give chunks and
    tokens whose texts occur in the text. *)
Theorem ascii_text_without_terms_unchanged nlp self text :
  isascii text = true ->
  spans_in_text nlp ->
  (forall s, substring s text -> resolve nlp self s = None) ->
  (forall p, p ∈ value (_extract_noun_phrases nlp text) self [] ->
             resolve nlp self (Phrase.text p) = None)
  /\ returns (preprocess_text nlp text) self (text, [], []).
Proof.
  intros _ Hspans Hnone.
  assert (forall p, p ∈ value (_extract_noun_phrases nlp text) self [] ->
                    resolve nlp self (Phrase.text p) = None) as Hcand.
  { destruct nlp as [pipeline|].
    - intros p Hp. apply Hnone.
      destruct (Hspans text) as [Hchunks Htokens].
      rewrite Forall_forall in Hchunks. rewrite Forall_forall in Htokens.
      unfold value, _extract_noun_phrases, ret in Hp. simpl in Hp.
      apply elem_of_app in Hp as [Hp|Hp].
      + apply list_elem_of_In, in_map_iff in Hp as (chunk & <- & Hc).
        simpl. by apply Hchunks, list_elem_of_In.
      + apply list_elem_of_In, in_map_iff in Hp as (token & <- & Ht).
        simpl. apply list_elem_of_In, list_elem_of_filter in Ht as [_ Ht].
        by apply Htokens.
    - intros p Hp.
      rewrite (returns_value _ _ _ [] (fallback_extract_returns self text)) in Hp.
      apply list_elem_of_In, in_map_iff in Hp as (w & <- & Hw). exfalso.
      apply list_elem_of_In, list_elem_of_filter in Hw as [[t Ht] Hw].
      apply findall_words_substring in Hw as (_ & Hword & Hsub).
      apply substring_lower in Hsub as (s & Hs & <-).
      specialize (Hnone s Hs). rewrite resolve_unfold in Hnone.
      rewrite (strip_word _ Hword), Ht in Hnone. discriminate Hnone. }
  split; [exact Hcand|]. by apply preprocess_text_no_match.
Qed.

Lemma inits_complete s b : s ∈ inits (s ++ b).
Proof.
  induction s as [|c s IH]; simpl.
  - destruct b; apply elem_of_cons; by left.
  - apply elem_of_cons. right. apply list_elem_of_In, in_map, list_elem_of_In, IH.
Qed.

Lemma tails_complete (a r : str) : r ∈ tails (a ++ r).
Proof.
  induction a as [|c a IH]; simpl.
  - destruct r; apply elem_of_cons; by left.
  - apply elem_of_cons. by right.
Qed.

Lemma substrings_complete s t : substring s t -> s ∈ substrings t.
Proof.
  intros (a & b & ->). unfold substrings.
  apply list_elem_of_In, in_flat_map. exists (s ++ b).
  split; apply list_elem_of_In; [apply tails_complete|apply inits_complete].
Qed.

Lemma ascii_text_without_terms_unchanged_witness :
  returns (preprocess_text None (py "It is up")) Demo.manager (py "It is up", [], []).
Proof.
  refine (proj2 (ascii_text_without_terms_unchanged None Demo.manager
                   (py "It is up") eq_refl I _)).
  intros s Hs. apply substrings_complete in Hs. revert s Hs.
  apply Forall_forall.
  let l := eval vm_compute in (substrings (py "It is up")) in
  change (substrings (py "It is up")) with l.
  repeat (constructor; [vm_compute; reflexivity|]). constructor.
Defined.

(** ** Substring replacement around placeholder tokens *)

Lemma replace_scan_skip old new k s :
  replace_scan old new k s = replace_scan old new O (drop k s).
Proof.
  revert k. induction s as [|c s IH]; intros k.
  - by destruct k.
  - destruct k as [|k]; [done|]. simpl. apply IH.
Qed.

Lemma replace_scan_cons o old new c s :
  replace_scan (o :: old) new O (c :: s) =
  if startswith (o :: old) (c :: s)
  then new ++ replace_scan (o :: old) new O (drop (length (o :: old)) (c :: s))
  else c :: replace_scan (o :: old) new O s.
Proof.
  cbn [replace_scan]. destruct (startswith (o :: old) (c :: s)); [|done].
  by rewrite replace_scan_skip.
Qed.

Lemma replace_scan_match o old new s :
  replace_scan (o :: old) new O ((o :: old) ++ s)
  = new ++ replace_scan (o :: old) new O s.
Proof.
  change ((o :: old) ++ s) with (o :: (old ++ s)). rewrite replace_scan_cons.
  change (o :: (old ++ s)) with ((o :: old) ++ s).
  rewrite (proj2 (startswith_prefix (o :: old) ((o :: old) ++ s))) by eauto.
  by rewrite drop_app_length.
Qed.

(** Characters other than the first one of [old] start no occurrence. *)
Lemma replace_scan_pass o old new u s :
  o ∉ u ->
  replace_scan (o :: old) new O (u ++ s) = u ++ replace_scan (o :: old) new O s.
Proof.
  induction u as [|c u IH]; intros Hu; [done|].
  apply not_elem_of_cons in Hu as [Hc Hu].
  change ((c :: u) ++ s) with (c :: (u ++ s)). rewrite replace_scan_cons.
  simpl. destruct (decide (o = c)) as [->|_]; [done|].
  by rewrite IH.
Qed.

Lemma until_delimiter (x : ascii) d e t u :
  x ∉ d -> x ∉ e -> d ++ x :: t = e ++ x :: u -> d = e.
Proof.
  revert e. induction d as [|c d IH]; intros [|c' e] Hd He Heq; simpl in *.
  - done.
  - injection Heq as -> _. exfalso. apply He. left.
  - injection Heq as -> _. exfalso. apply Hd. left.
  - injection Heq as -> Heq.
    apply not_elem_of_cons in Hd as [_ Hd]. apply not_elem_of_cons in He as [_ He].
    f_equal. by apply IH.
Qed.

Section Around.

Variables old tok new : str.
Hypothesis Hold : bracketed old.
Hypothesis Htok : bracketed tok.
Hypothesis Hne : old <> tok.

(** An occurrence of [old] does not start at a token other than [old]. *)
Lemma token_starts_no_other b : startswith old (tok ++ b) = false.
Proof.
  destruct (startswith old (tok ++ b)) eqn:E; [exfalso|done].
  apply startswith_prefix in E as [x Hx].
  destruct Hold as (d & -> & _ & Hd), Htok as (e & -> & _ & He).
  apply Hne. f_equal. f_equal.
  simpl in Hx. injection Hx as Hx. rewrite <- !app_assoc in Hx. simpl in Hx.
  symmetry in Hx. by apply (until_delimiter _ _ _ _ _ Hd He Hx).
Qed.

Lemma replace_scan_token b :
  replace_scan old new O (tok ++ b) = tok ++ replace_scan old new O b.
Proof.
  pose proof (token_starts_no_other b) as Hno.
  destruct Hold as (d & -> & _ & _), Htok as (e & -> & He & _).
  change (("<"%char :: e ++ [">"%char]) ++ b)
    with ("<"%char :: ((e ++ [">"%char]) ++ b)) in *.
  rewrite replace_scan_cons, Hno. simpl. f_equal.
  apply replace_scan_pass. rewrite elem_of_app, list_elem_of_singleton.
  intros [?|?]; done.
Qed.

(** An occurrence of [old] that starts before a token ends before it. *)
Lemma occurrence_before_token c a b x :
  old ++ x = (c :: a) ++ tok ++ b -> exists k, c :: a = old ++ k.
Proof.
  intros Heq. apply app_eq_app in Heq as [k [[Ho Hk]|[Ha Hx]]]; [|by exists k].
  destruct k as [|k1 k]; [exists []; by rewrite Ho, !app_nil_r|exfalso].
  destruct Htok as (e & -> & _ & _). simpl in Hk. injection Hk as <- _.
  destruct Hold as (d & -> & Hd & _). simpl in Ho. injection Ho as _ Ho.
  assert ("<"%char ∈ d ++ [">"%char]) as Hin.
  { rewrite Ho. apply elem_of_app. right. left. }
  apply elem_of_app in Hin as [?|Hin]; [done|].
  by apply list_elem_of_singleton in Hin.
Qed.

Lemma replace_scan_step c s :
  replace_scan old new O (c :: s) =
  if startswith old (c :: s)
  then new ++ replace_scan old new O (drop (length old) (c :: s))
  else c :: replace_scan old new O s.
Proof. destruct Hold as (d & -> & _). apply replace_scan_cons. Qed.

Lemma replace_scan_around a b :
  replace_scan old new O (a ++ tok ++ b)
  = replace_scan old new O a ++ tok ++ replace_scan old new O b.
Proof.
  remember (length a) as n eqn:Hn. revert a Hn.
  induction (lt_wf n) as [n _ IH]. intros a ->.
  destruct a as [|c a]; [apply replace_scan_token|].
  change ((c :: a) ++ tok ++ b) with (c :: (a ++ tok ++ b)).
  rewrite !replace_scan_step.
  change (c :: (a ++ tok ++ b)) with ((c :: a) ++ tok ++ b).
  destruct (startswith old ((c :: a) ++ tok ++ b)) eqn:E.
  - apply startswith_prefix in E as [x Hx]. symmetry in Hx.
    destruct (occurrence_before_token c a b x Hx) as [k Hk].
    rewrite (proj2 (startswith_prefix old (c :: a))) by eauto.
    rewrite Hk, <- !app_assoc, !drop_app_length.
    rewrite (IH (length k)); [done|..|done].
    apply (f_equal length) in Hk. rewrite length_app in Hk.
    destruct Hold as (d & -> & _). simpl in *. lia.
  - assert (startswith old (c :: a) = false) as ->.
    { destruct (startswith old (c :: a)) eqn:E'; [|done].
      apply startswith_prefix in E' as [x Hx].
      assert (startswith old ((c :: a) ++ tok ++ b) = true); [|congruence].
      apply startswith_prefix. exists (x ++ tok ++ b).
      by rewrite Hx, <- app_assoc. }
    simpl. f_equal. by apply (IH (length a)); [simpl; lia|].
Qed.

End Around.

Lemma replace_bracketed s old new :
  bracketed old -> replace s old new = replace_scan old new O s.
Proof. by intros (d & -> & _). Qed.

(** A string in which [old] does not occur is left as it is. *)
Lemma replace_absent s old new : ~ substring old s -> replace s old new = s.
Proof.
  destruct old as [|o old].
  { intros H. destruct H. by exists [], s. }
  unfold replace. induction s as [|c s IH]; intros Hno; [done|].
  rewrite replace_scan_cons.
  destruct (startswith (o :: old) (c :: s)) eqn:E.
  - destruct Hno. apply startswith_prefix in E as [b ->]. by exists [], b.
  - f_equal. apply IH. intros H. by apply Hno, substring_cons.
Qed.

(** ** The decimal form of an integer *)

Lemma string_of_uint_no_bracket d c :
  c ∈ list_ascii_of_string (NilEmpty.string_of_uint d) ->
  c <> "<"%char /\ c <> ">"%char.
Proof.
  induction d; simpl; intros Hc;
    [by apply elem_of_nil in Hc
    |apply elem_of_cons in Hc as [->|Hc]; [by split|by apply IHd] ..].
Qed.

Lemma str_of_int_no_bracket n c :
  c ∈ str_of_int n -> c <> "<"%char /\ c <> ">"%char.
Proof.
  unfold str_of_int. destruct (Z.to_int n) as [d|d]; simpl.
  - apply string_of_uint_no_bracket.
  - intros Hc. apply elem_of_cons in Hc as [->|Hc]; [by split|].
    by apply string_of_uint_no_bracket in Hc.
Qed.

Lemma str_of_int_inj a b : str_of_int a = str_of_int b -> a = b.
Proof.
  unfold str_of_int. intros H.
  apply (f_equal string_of_list_ascii) in H.
  rewrite !string_of_list_ascii_of_string in H.
  apply (f_equal NilEmpty.int_of_string) in H. rewrite !NilEmpty.isi in H.
  injection H as H. apply (f_equal Z.of_int) in H.
  by rewrite !DecimalZ.of_to in H.
Qed.

Lemma is_placeholder_bracketed k : is_placeholder k -> bracketed k.
Proof.
  intros [n ->]. exists (str_of_int n). split; [done|].
  split; intros H; apply str_of_int_no_bracket in H as [? ?]; done.
Qed.

Lemma placeholder_of_is_placeholder term_obj : is_placeholder (placeholder_of term_obj).
Proof. by exists (Term.id term_obj). Qed.

(** A bracketed token occurs in another one only when they are equal. *)
Lemma bracketed_substring k1 k2 :
  bracketed k1 -> bracketed k2 -> substring k1 k2 -> k1 = k2.
Proof.
  intros (d & -> & Hd1 & Hd2) (e & -> & He1 & He2) (a & b & Heq).
  destruct a as [|c a].
  - simpl in Heq. injection Heq as Heq. rewrite <- !app_assoc in Heq.
    simpl in Heq. f_equal. f_equal.
    symmetry. by apply (until_delimiter _ _ _ _ _ He2 Hd2 Heq).
  - exfalso. simpl in Heq. injection Heq as _ Heq.
    assert ("<"%char ∈ e ++ [">"%char]) as Hin.
    { rewrite Heq. apply elem_of_app. right. left. }
    apply elem_of_app in Hin as [?|Hin]; [done|].
    by apply list_elem_of_singleton in Hin.
Qed.

(** ** Placeholders that are not in the mapping *)

Lemma restore_all_around original_cases replacements tok :
  Forall bracketed (dict_keys replacements) ->
  bracketed tok ->
  tok ∉ dict_keys replacements ->
  forall a b,
    foldl (restore_item original_cases) (a ++ tok ++ b) replacements
    = foldl (restore_item original_cases) a replacements
      ++ tok ++ foldl (restore_item original_cases) b replacements.
Proof.
  intros Hkeys Htok. induction replacements as [|[k t] l IH]; intros Hnot a b.
  { done. }
  simpl in *. apply Forall_cons in Hkeys as [Hk Hkeys].
  apply not_elem_of_cons in Hnot as [Hne Hnot].
  unfold restore_item at 2 4 6. simpl.
  rewrite !(replace_bracketed _ k) by done.
  rewrite (replace_scan_around k tok _ Hk Htok) by done.
  by apply IH.
Qed.

Lemma restore_all_absent original_cases replacements text :
  (forall k, k ∈ dict_keys replacements -> ~ substring k text) ->
  foldl (restore_item original_cases) text replacements = text.
Proof.
  induction replacements as [|[k t] l IH]; intros Hno; [done|].
  simpl. unfold restore_item at 2. simpl.
  rewrite replace_absent by (apply Hno; left).
  apply IH. intros k' Hk'. apply Hno. by right.
Qed.

(** C6.  [postprocess_text] raises nothing; a text in which no key of the
    mapping occurs is returned as it is; and a placeholder token of the text
    that is not a key of the mapping, the keys being placeholder tokens,
    stays where it is: the result is the result for the text before it, the
    token, and the result for the text after it. *)
Theorem postprocess_text_leaves_unmapped self text replacements original_cases :
  (exists result,
      returns (postprocess_text text replacements original_cases) self result)
  /\ ((forall k, k ∈ dict_keys replacements -> ~ substring k text) ->
      returns (postprocess_text text replacements original_cases) self text)
  /\ (forall a tok b,
        text = a ++ tok ++ b ->
        Forall is_placeholder (dict_keys replacements) ->
        is_placeholder tok ->
        tok ∉ dict_keys replacements ->
        exists a' b',
          returns (postprocess_text a replacements original_cases) self a'
          /\ returns (postprocess_text b replacements original_cases) self b'
          /\ returns (postprocess_text text replacements original_cases) self
                     (a' ++ tok ++ b')).
Proof.
  split; [|split].
  - eexists. apply postprocess_text_returns.
  - intros Hno. pose proof (postprocess_text_returns self text replacements
                              original_cases) as H.
    by rewrite restore_all_absent in H.
  - intros a tok b -> Hkeys Htok Hnot.
    exists (foldl (restore_item original_cases) a replacements),
           (foldl (restore_item original_cases) b replacements).
    split; [apply postprocess_text_returns|].
    split; [apply postprocess_text_returns|].
    pose proof (postprocess_text_returns self (a ++ tok ++ b) replacements
                  original_cases) as H.
    rewrite restore_all_around in H; [done| |by apply is_placeholder_bracketed|done].
    eapply Forall_impl; [exact Hkeys|]. apply is_placeholder_bracketed.
Qed.

Lemma postprocess_text_leaves_unmapped_witness :
  exists a' b',
    returns (postprocess_text (py "Hola ") [(py "<1>", Demo.database)]
                              [(py "<1>", py "Database")]) Demo.manager a'
    /\ returns (postprocess_text (py ": <1>") [(py "<1>", Demo.database)]
                                 [(py "<1>", py "Database")]) Demo.manager b'
    /\ returns (postprocess_text (py "Hola <2>: <1>") [(py "<1>", Demo.database)]
                                 [(py "<1>", py "Database")]) Demo.manager
               (a' ++ py "<2>" ++ b').
Proof.
  apply (proj2 (proj2 (postprocess_text_leaves_unmapped Demo.manager
                         (py "Hola <2>: <1>") [(py "<1>", Demo.database)]
                         [(py "<1>", py "Database")]))
           (py "Hola ") (py "<2>") (py ": <1>")).
  - reflexivity.
  - constructor; [|constructor]. exists 1. reflexivity.
  - exists 2. reflexivity.
  - intros H. apply list_elem_of_singleton in H. discriminate H.
Defined.

(** ** Placeholder tokens of one call *)

Lemma dict_keys_set {V} (d : dict V) k v :
  dict_keys (dict_set d k v)
  = if decide (k ∈ dict_keys d) then dict_keys d else dict_keys d ++ [k].
Proof.
  induction d as [|[k' v'] d IH]; [done|].
  cbn [dict_set]. destruct (decide (k' = k)) as [->|Hne].
  - rewrite decide_True; [done|]. apply elem_of_cons. by left.
  - change (dict_keys ((k', v') :: dict_set d k v))
      with (k' :: dict_keys (dict_set d k v)).
    change (dict_keys ((k', v') :: d)) with (k' :: dict_keys d).
    rewrite IH. destruct (decide (k ∈ dict_keys d)) as [Hin|Hnin].
    + rewrite decide_True; [done|]. apply elem_of_cons. by right.
    + rewrite decide_False; [done|].
      intros Hin. apply elem_of_cons in Hin as [?|?]; congruence.
Qed.

Lemma dict_keys_set_elem {V} (d : dict V) k v k' :
  k' ∈ dict_keys (dict_set d k v) <-> k' ∈ dict_keys d \/ k' = k.
Proof.
  rewrite dict_keys_set. destruct (decide (k ∈ dict_keys d)) as [Hin|Hnin].
  - split; [by left|]. intros [?| ->]; done.
  - rewrite elem_of_app, list_elem_of_singleton. done.
Qed.

Lemma dict_keys_set_NoDup {V} (d : dict V) k v :
  NoDup (dict_keys d) -> NoDup (dict_keys (dict_set d k v)).
Proof.
  intros Hd. rewrite dict_keys_set.
  destruct (decide (k ∈ dict_keys d)) as [Hin|Hnin]; [done|].
  apply NoDup_app. split; [done|]. split; [|apply NoDup_singleton].
  intros x Hx Hk. apply list_elem_of_singleton in Hk as ->. done.
Qed.

(** The keys of the two mappings after the loop of lines 192-205. *)
Lemma encode_all_keys nlp self spans :
  forall locals,
    NoDup (dict_keys locals.1.2) ->
    dict_keys locals.2 = dict_keys locals.1.2 ->
    let result := foldl (encode_phrase nlp self) locals spans in
    NoDup (dict_keys result.1.2)
    /\ dict_keys result.2 = dict_keys result.1.2
    /\ forall k, k ∈ dict_keys result.1.2 <->
         k ∈ dict_keys locals.1.2
         \/ k ∈ omap (fun phrase => placeholder_of <$> resolve nlp self (Phrase.text phrase))
                     spans.
Proof.
  induction spans as [|p spans IH]; intros locals Hnd Hkeys; simpl.
  { split; [done|]. split; [done|]. intros k. rewrite elem_of_nil. tauto. }
  unfold encode_phrase at 2 4 6 8.
  destruct (resolve nlp self (Phrase.text p)) as [t|]; simpl.
  - edestruct IH as (H1 & H2 & H3); [| |split; [exact H1|split; [exact H2|]]].
    + simpl. by apply dict_keys_set_NoDup.
    + simpl. rewrite !dict_keys_set, Hkeys. done.
    + intros k. rewrite H3. simpl. rewrite dict_keys_set_elem, elem_of_cons. tauto.
  - apply IH; done.
Qed.

Lemma generated_placeholders_spec nlp self text k :
  k ∈ generated_placeholders nlp self text ->
  exists phrase term_obj,
    resolve nlp self (Phrase.text phrase) = Some term_obj
    /\ k = placeholder_of term_obj.
Proof.
  unfold generated_placeholders. intros Hk.
  apply list_elem_of_omap in Hk as (phrase & _ & Hk).
  destruct (resolve nlp self (Phrase.text phrase)) as [t|] eqn:E; [|done].
  injection Hk as <-. eauto.
Qed.

(** X15.  The token of a term is ["<"], the decimal id of the term, [">"]:
    terms with different ids get different tokens, terms with one id get one
    token, and a token occurs in another one only when they are the same
    token.  The keys of the mappings that [preprocess_text] returns are the
    generated tokens, each once, the same in both mappings, and each is of
    that form. *)
Theorem placeholder_tokens_unambiguous nlp self text :
  (forall t1 t2 : Term,
     placeholder_of t1 = placeholder_of t2 <-> Term.id t1 = Term.id t2)
  /\ (forall t1 t2 : Term,
        substring (placeholder_of t1) (placeholder_of t2) ->
        Term.id t1 = Term.id t2)
  /\ exists result,
       returns (preprocess_text nlp text) self result
       /\ NoDup (dict_keys result.1.2)
       /\ dict_keys result.2 = dict_keys result.1.2
       /\ Forall is_placeholder (dict_keys result.1.2)
       /\ forall k, k ∈ dict_keys result.1.2 <->
                    k ∈ generated_placeholders nlp self text.
Proof.
  assert (forall t1 t2 : Term,
            placeholder_of t1 = placeholder_of t2 <-> Term.id t1 = Term.id t2)
    as Hinj.
  { intros t1 t2. unfold placeholder_of. split; [|by intros ->].
    intros H. simpl in H. injection H as H.
    apply app_inv_tail in H. by apply str_of_int_inj. }
  split; [exact Hinj|]. split.
  { intros t1 t2 Hsub. apply Hinj.
    apply bracketed_substring;
      [apply is_placeholder_bracketed, placeholder_of_is_placeholder ..|done]. }
  eexists. split; [apply preprocess_text_returns|].
  assert (forall k, k ∈ generated_placeholders nlp self text -> is_placeholder k)
    as Hshape.
  { intros k Hk. apply generated_placeholders_spec in Hk as (p & t & _ & ->).
    apply placeholder_of_is_placeholder. }
  destruct (Nat.eqb (size (terms self)) 0) eqn:E; simpl.
  - apply Nat.eqb_eq, map_size_empty_iff in E.
    split; [constructor|]. split; [done|]. split; [constructor|].
    intros k. split; [by intros ?%elem_of_nil|].
    intros Hk. apply generated_placeholders_spec in Hk as (p & t & Hr & _).
    by rewrite resolve_empty_store in Hr.
  - destruct (encode_all_keys nlp self (value (matching_phrases nlp text) self [])
                (text, [], [])) as (H1 & H2 & H3); [constructor|done|].
    split; [exact H1|]. split; [exact H2|].
    assert (forall k,
              k ∈ dict_keys (foldl (encode_phrase nlp self) (text, [], [])
                                   (value (matching_phrases nlp text) self [])).1.2
              <-> k ∈ generated_placeholders nlp self text) as Hkeys.
    { intros k. rewrite H3. simpl. rewrite elem_of_nil.
      unfold generated_placeholders. tauto. }
    split; [|exact Hkeys].
    apply Forall_forall. intros k Hk. by apply Hshape, Hkeys.
Qed.

Lemma placeholder_tokens_unambiguous_witness :
  Term.id Demo.database
  = Term.id (Term.mk 1 (py "server") (py "servidor") (py "general") (py "es") None).
Proof.
  apply (proj1 (proj2 (placeholder_tokens_unambiguous None Demo.manager (py "server")))).
  exists [], []. reflexivity.
Defined.

(** A directory with one file per language, each numbering its terms from
    1, gives two stored terms the id 1, and the spans of "server" and
    "router" in one text get the same token. *)
Lemma two_languages_share_a_token :
  resolve None Demo.two_languages (py "server")
  <> resolve None Demo.two_languages (py "router")
  /\ generated_placeholders None Demo.two_languages (py "The server and the router")
     = [py "<1>"; py "<1>"]
  /\ ~ NoDup (generated_placeholders None Demo.two_languages
                                     (py "The server and the router")).
Proof.
  split; [|split].
  - vm_compute. discriminate.
  - vm_compute. reflexivity.
  - assert (generated_placeholders None Demo.two_languages
              (py "The server and the router") = [py "<1>"; py "<1>"]) as ->
      by (vm_compute; reflexivity).
    intros H. apply NoDup_cons in H as [H _]. apply H. left.
Qed.

(** C2, the code at the failing input.  A file without an id column in
    which the term "router" comes twice gives "router" and "server" the id
    3, the counter [len(self.terms) + 1] standing still at the second
    "router".  In "restart the router and the server" the two matched spans
    get the same token, the mappings keep one entry, and
    [postprocess_text] renders "server" with the translation of "router". *)
Theorem shared_id_gives_one_token :
  Term.id <$> terms Demo.counter_manager !! py "router" = Some 3
  /\ Term.id <$> terms Demo.counter_manager !! py "server" = Some 3
  /\ Term.translation <$> terms Demo.counter_manager !! py "server"
     = Some (py "servidor")
  /\ generated_placeholders None Demo.counter_manager
                            (py "restart the router and the server")
     = [py "<3>"; py "<3>"]
  /\ returns (preprocess_text None (py "restart the router and the server"))
             Demo.counter_manager
             (py "restart the <3> and the <3>",
              [(py "<3>", Demo.router_term)],
              [(py "<3>", py "router")])
  /\ returns (postprocess_text (py "restart the <3> and the <3>")
                               [(py "<3>", Demo.router_term)]
                               [(py "<3>", py "router")])
             Demo.counter_manager
             (py "restart the enrutador and the enrutador").
Proof.
  split; [vm_compute; reflexivity|]. split; [vm_compute; reflexivity|].
  split; [vm_compute; reflexivity|]. split; [vm_compute; reflexivity|].
  split; vm_compute; reflexivity.
Qed.

(** ** Loading *)

Lemma _load_row_cases language row self :
  (Csv.id row = Some None
   /\ _load_row language row self = (Raise ValueError, self))
  \/ (converts row /\ ~ kept row
      /\ _load_row language row self = (Ok tt, self))
  \/ (converts row /\ kept row
      /\ _load_row language row self = (Ok tt, with_row language row self)).
Proof.
  unfold _load_row, with_row, term_of_row, kept, converts, normalized_term,
    bind, self_terms, setitem_terms, ret, raise.
  destruct (Csv.id row) as [[i|]|]; simpl; [|by left|].
  all: destruct (strip (lower (Csv.str_of (default (Csv.Text []) (Csv.term row)))))
    as [|c w];
    [right; left; split; [done|]; split; [by intros [? _]|done]|].
  all: destruct (Csv.str_of (default (Csv.Text []) (Csv.translation row)))
    as [|c' w'];
    [right; left; split; [done|]; split; [by intros [_ ?]|done]|].
  all: right; right; by repeat split.
Qed.

Lemma after_rows_nil language self : after_rows language [] self = self.
Proof. reflexivity. Qed.

Lemma after_rows_cons language row rows self :
  after_rows language (row :: rows) self =
  match _load_row language row self with
  | (Ok _, self') => after_rows language rows self'
  | (Raise _, self') => self'
  end.
Proof.
  unfold after_rows. simpl. unfold bind.
  by destruct (_load_row language row self) as [[[]|e] self'].
Qed.

Lemma after_rows_app language pre rest self :
  Forall converts pre ->
  after_rows language (pre ++ rest) self
  = after_rows language rest (after_rows language pre self).
Proof.
  intros Hpre. revert self. induction Hpre as [|row pre Hrow _ IH]; intros self.
  { done. }
  simpl. rewrite !after_rows_cons.
  destruct (_load_row_cases language row self)
    as [[Hid _]|[(_ & _ & ->)|(_ & _ & ->)]]; [done|apply IH..].
Qed.

(** A key that no kept row has stays as it is. *)
Lemma after_rows_frame language rows key :
  (forall row, row ∈ rows -> kept row -> normalized_term row <> key) ->
  forall self,
    terms (after_rows language rows self) !! key = terms self !! key.
Proof.
  induction rows as [|row rows IH]; intros Hrows self; [done|].
  rewrite after_rows_cons.
  assert (forall r, r ∈ rows -> kept r -> normalized_term r <> key) as Hrest.
  { intros r Hr. apply Hrows. by right. }
  destruct (_load_row_cases language row self)
    as [[_ ->]|[(_ & _ & ->)|(_ & Hkept & ->)]]; [done|by apply IH|].
  rewrite IH by done. simpl. apply lookup_insert_ne. apply Hrows; [left|done].
Qed.

Lemma load_file_terms lang_match rows self :
  terms (snd (_load_single_file (Csv.mkFile lang_match (Some rows)) self))
  = terms (after_rows (language_of (Csv.mkFile lang_match (Some rows))) rows self).
Proof.
  unfold _load_single_file, after_rows, language_of, try_except, bind. simpl.
  by destruct (for_each rows tt _ self) as [[[]|e] self'].
Qed.

(** A row that is not kept and whose id converts can be left out. *)
Lemma after_rows_skip language pre row post self :
  converts row -> ~ kept row ->
  after_rows language (pre ++ row :: post) self
  = after_rows language (pre ++ post) self.
Proof.
  intros Hconv Hskip. revert self. induction pre as [|r pre IH]; intros self; simpl.
  - rewrite after_rows_cons.
    destruct (_load_row_cases language row self)
      as [[? _]|[(_ & _ & ->)|(_ & ? & _)]]; done.
  - rewrite !after_rows_cons.
    destruct (_load_row language r self) as [[[]|e] self']; [apply IH|done].
Qed.

(** X16.  A row is skipped when the text of its term, lowercased and
    trimmed, or the text of its translation is empty, as for a blank term or
    an absent column: a file of such rows adds nothing to the store, and
    leaving such a row out of a file changes nothing in the store that
    results.  A kept row is stored under its key, the lowercased and trimmed
    term.  And of the rows of one key, the last one loaded is the one in the
    store afterwards, whatever the store held under that key before, from
    this file or from an earlier one. *)
Theorem load_keeps_last_record lang_match self :
  (forall rows,
     (forall row, row ∈ rows -> ~ kept row) ->
     terms (snd (_load_single_file (Csv.mkFile lang_match (Some rows)) self))
     = terms self)
  /\ (forall pre row post,
        converts row -> ~ kept row ->
        terms (snd (_load_single_file
                      (Csv.mkFile lang_match (Some (pre ++ row :: post))) self))
        = terms (snd (_load_single_file
                        (Csv.mkFile lang_match (Some (pre ++ post))) self)))
  /\ (forall row,
        converts row -> kept row ->
        terms (snd (_load_single_file (Csv.mkFile lang_match (Some [row])) self))
        = <[normalized_term row :=
              term_of_row (language_of (Csv.mkFile lang_match (Some [row])))
                          (size (terms self)) row]> (terms self))
  /\ (forall pre row post,
        Forall converts pre -> converts row -> kept row ->
        (forall later, later ∈ post -> kept later ->
                       normalized_term later <> normalized_term row) ->
        terms (snd (_load_single_file
                      (Csv.mkFile lang_match (Some (pre ++ row :: post))) self))
          !! normalized_term row
        = Some (term_of_row
                  (language_of (Csv.mkFile lang_match (Some (pre ++ row :: post))))
                  (size (terms (snd (_load_single_file
                                       (Csv.mkFile lang_match (Some pre)) self))))
                  row)).
Proof.
  split; [|split; [|split]].
  - intros rows Hrows. rewrite load_file_terms. apply map_eq. intros key.
    apply after_rows_frame. intros row Hrow Hkept. by destruct (Hrows row Hrow).
  - intros pre row post Hconv Hskip. rewrite !load_file_terms.
    change (language_of (Csv.mkFile lang_match (Some (pre ++ post))))
      with (language_of (Csv.mkFile lang_match (Some (pre ++ row :: post)))).
    by rewrite after_rows_skip.
  - intros row Hconv Hkept. rewrite load_file_terms, after_rows_cons.
    destruct (_load_row_cases (language_of (Csv.mkFile lang_match (Some [row])))
                row self) as [[? _]|[(_ & ? & _)|(_ & _ & ->)]]; done.
  - intros pre row post Hpre Hconv Hkept Hpost.
    rewrite !load_file_terms.
    change (language_of (Csv.mkFile lang_match (Some pre)))
      with (language_of (Csv.mkFile lang_match (Some (pre ++ row :: post)))).
    set (lang := language_of (Csv.mkFile lang_match (Some (pre ++ row :: post)))).
    rewrite (after_rows_app lang pre (row :: post) self Hpre).
    rewrite after_rows_cons.
    destruct (_load_row_cases lang row (after_rows lang pre self))
      as [[? _]|[(_ & ? & _)|(_ & _ & ->)]]; [done..|].
    rewrite after_rows_frame by done. simpl. apply lookup_insert_eq.
Qed.

Lemma load_keeps_last_record_witness :
  terms (snd (_load_single_file
                (Csv.mkFile (Some (py "ES"))
                   (Some ([Demo.first_row] ++ Demo.second_row :: [Demo.empty_row])))
                Demo.empty_manager))
    !! py "server"
  = Some (Term.mk 2 (py "server") (py "servidor web") (py "it") (py "es") None).
Proof.
  apply (proj2 (proj2 (proj2 (load_keeps_last_record (Some (py "ES"))
                                Demo.empty_manager)))
           [Demo.first_row] Demo.second_row [Demo.empty_row]).
  - repeat constructor. unfold converts. simpl. discriminate.
  - unfold converts. simpl. discriminate.
  - split; vm_compute; discriminate.
  - intros later Hlater [Hkey _].
    apply list_elem_of_singleton in Hlater as ->. by destruct Hkey.
Defined.

(** C8, the code at the failing input.  A cell that the file leaves empty
    reaches the loader as NaN, and [str] of NaN is "nan", which is not
    empty: the test of line 81 lets the row through.  The row without a
    translation is stored with the translation "nan", and the row without a
    term is stored under the key "nan". *)
Theorem missing_cells_are_stored :
  terms (snd (_load_single_file Demo.missing_cells_csv Demo.empty_manager))
    !! py "server"
  = Some (Term.mk 1 (py "server") (py "nan") (py "general") (py "fr") None)
  /\ terms (snd (_load_single_file Demo.missing_cells_csv Demo.empty_manager))
       !! py "nan"
     = Some (Term.mk 2 (py "nan") (py "routeur") (py "general") (py "fr") None)
  /\ size (terms (snd (_load_single_file Demo.missing_cells_csv
                                         Demo.empty_manager))) = 2%nat.
Proof. repeat split; vm_compute; reflexivity. Qed.

(** A record of a later file replaces the record an earlier file of the
    same directory stored under the key. *)
Lemma load_directory_last_source_wins :
  terms (__init__ (Some (SourceDir [(py "terms.csv", Demo.old_csv);
                                    (py "terminologies_fr.csv", Demo.new_csv)])))
    !! py "server"
  = Some (Term.mk 5 (py "server") (py "serveur") (py "general") (py "fr") None).
Proof. vm_compute. reflexivity. Qed.

(** ** Normalization: [lower] and [strip] *)

Lemma char_lower_lower c : Char.lower (Char.lower c) = Char.lower c.
Proof. destruct c as [[] [] [] [] [] [] [] []]; reflexivity. Qed.

Lemma char_lower_upper c : Char.lower (Char.upper c) = Char.lower c.
Proof. destruct c as [[] [] [] [] [] [] [] []]; reflexivity. Qed.

Lemma char_isspace_lower c : Char.isspace (Char.lower c) = Char.isspace c.
Proof. destruct c as [[] [] [] [] [] [] [] []]; reflexivity. Qed.

Lemma lower_lower s : lower (lower s) = lower s.
Proof.
  unfold lower. rewrite map_map. apply map_ext. intros c. apply char_lower_lower.
Qed.

Lemma lower_upper s : lower (upper s) = lower s.
Proof.
  unfold lower, upper. rewrite map_map. apply map_ext. intros c.
  apply char_lower_upper.
Qed.

Lemma lower_capitalize s : lower (capitalize s) = lower s.
Proof.
  destruct s as [|c s]; [done|]. simpl.
  by rewrite char_lower_upper, lower_lower.
Qed.

Lemma lstrip_lower s : lstrip (lower s) = lower (lstrip s).
Proof.
  induction s as [|c s IH]; [done|]. simpl.
  rewrite char_isspace_lower. by destruct (Char.isspace c).
Qed.

Lemma rev_lower s : rev (lower s) = lower (rev s).
Proof. unfold lower. by rewrite map_rev. Qed.

Lemma strip_lower s : strip (lower s) = lower (strip s).
Proof.
  unfold strip, rstrip.
  by rewrite lstrip_lower, rev_lower, lstrip_lower, rev_lower.
Qed.

Lemma lstrip_lstrip s : lstrip (lstrip s) = lstrip s.
Proof.
  induction s as [|c s IH]; [done|]. simpl.
  destruct (Char.isspace c) eqn:E; [done|]. simpl. by rewrite E.
Qed.

Lemma lstrip_app_nonspace u c v :
  Char.isspace c = false -> lstrip (u ++ c :: v) = lstrip u ++ c :: v.
Proof.
  intros Hc. induction u as [|d u IH]; simpl.
  - by rewrite Hc.
  - by destruct (Char.isspace d).
Qed.

Lemma rstrip_cons_nonspace c t :
  Char.isspace c = false -> rstrip (c :: t) = c :: rstrip t.
Proof.
  intros Hc. unfold rstrip. simpl.
  rewrite lstrip_app_nonspace by done. by rewrite rev_app_distr.
Qed.

Lemma lstrip_head s :
  lstrip s = [] \/ exists c t, lstrip s = c :: t /\ Char.isspace c = false.
Proof.
  induction s as [|c s IH]; simpl; [by left|].
  destruct (Char.isspace c) eqn:E; [done|]. right. eauto.
Qed.

Lemma rstrip_rstrip t : rstrip (rstrip t) = rstrip t.
Proof. unfold rstrip. by rewrite rev_involutive, lstrip_lstrip. Qed.

Lemma strip_strip s : strip (strip s) = strip s.
Proof.
  unfold strip. destruct (lstrip_head s) as [->|(c & t & -> & Hc)]; [done|].
  rewrite rstrip_cons_nonspace by done. simpl. rewrite Hc.
  rewrite rstrip_cons_nonspace by done. by rewrite rstrip_rstrip.
Qed.

(** The key of a phrase is a fixed point of the normalization. *)
Lemma normalize_idempotent s : strip (lower (strip (lower s))) = strip (lower s).
Proof. by rewrite !strip_lower, strip_strip, lower_lower. Qed.

(** ** Lookup *)

Lemma resolve_same_key nlp self phrase phrase' :
  strip (lower phrase') = strip (lower phrase) ->
  resolve nlp self phrase' = resolve nlp self phrase.
Proof. intros H. by rewrite !resolve_unfold, H. Qed.

(** X1.  The lookup of a phrase does not depend on the whitespace around it
    nor on whether it is lowercased first: the phrase, its lowercase form
    and its trimmed form resolve alike.  For a phrase of ASCII characters
    its uppercase and capitalized forms resolve like the phrase too. *)
Theorem lookup_ignores_case_and_padding nlp self phrase :
  resolve nlp self (lower phrase) = resolve nlp self phrase
  /\ resolve nlp self (strip phrase) = resolve nlp self phrase
  /\ (isascii phrase = true ->
      resolve nlp self (upper phrase) = resolve nlp self phrase
      /\ resolve nlp self (capitalize phrase) = resolve nlp self phrase
      /\ returns (_find_matching_term nlp (upper phrase)) self
                 (resolve nlp self phrase)).
Proof.
  assert (resolve nlp self (upper phrase) = resolve nlp self phrase) as Hupper.
  { apply resolve_same_key. by rewrite lower_upper. }
  split; [|split].
  - apply resolve_same_key. by rewrite lower_lower.
  - apply resolve_same_key. by rewrite <- strip_lower, strip_strip.
  - intros _. split; [exact Hupper|]. split.
    + apply resolve_same_key. by rewrite lower_capitalize.
    + rewrite <- Hupper. apply _find_matching_term_returns.
Qed.

Lemma lookup_ignores_case_and_padding_witness :
  resolve None Demo.manager (upper (py " server "))
  = resolve None Demo.manager (py " server ")
  /\ resolve None Demo.manager (capitalize (py " server "))
     = resolve None Demo.manager (py " server ")
  /\ returns (_find_matching_term None (upper (py " server "))) Demo.manager
             (resolve None Demo.manager (py " server ")).
Proof.
  apply (proj2 (proj2 (lookup_ignores_case_and_padding None Demo.manager
                         (py " server ")))).
  reflexivity.
Defined.

(** ** Loading: failures, language and what the store keeps *)

Lemma for_each_invariant {A B} (P : TerminologyManager -> Prop)
    (body : B -> A -> Py B) (l : list A) :
  (forall acc x self, P self -> P (snd (body acc x self))) ->
  forall acc self, P self -> P (snd (for_each l acc body self)).
Proof.
  intros Hbody. induction l as [|x l IH]; intros acc self Hself; simpl; [done|].
  unfold bind. pose proof (Hbody acc x self Hself) as Hx.
  destruct (body acc x self) as [[acc'|e] self']; simpl in *; [by apply IH|done].
Qed.

Lemma load_rows_ok lang rows self :
  Forall converts rows ->
  for_each rows tt (fun _ row => _load_row lang row) self
  = (Ok tt, after_rows lang rows self).
Proof.
  intros Hrows. revert self. induction Hrows as [|row rows Hrow _ IH]; intros self.
  { done. }
  rewrite after_rows_cons. simpl. unfold bind.
  destruct (_load_row_cases lang row self)
    as [[? _]|[(_ & _ & ->)|(_ & _ & ->)]]; [done|apply IH..].
Qed.

Lemma load_rows_raise lang pre row post self :
  Forall converts pre -> Csv.id row = Some None ->
  for_each (pre ++ row :: post) tt (fun _ row => _load_row lang row) self
  = (Raise ValueError, after_rows lang pre self).
Proof.
  intros Hpre Hrow. revert self. induction Hpre as [|r pre Hr _ IH]; intros self.
  - simpl. unfold bind.
    destruct (_load_row_cases lang row self)
      as [[_ ->]|[(? & _)|(? & _)]]; done.
  - rewrite after_rows_cons. simpl. unfold bind.
    destruct (_load_row_cases lang r self)
      as [[? _]|[(_ & _ & ->)|(_ & _ & ->)]]; [done|apply IH..].
Qed.



(** X3.  When [int] raises on the id of a row, the rows before it stay in
    the store, the rows after it are not loaded, and the language of the
    file is not recorded: the store is the one that the rows before the bad
    row give, and [self.language] is what it was. *)
Theorem load_stops_at_bad_id lang_match pre row post self :
  Forall converts pre ->
  Csv.id row = Some None ->
  terms (snd (_load_single_file
                (Csv.mkFile lang_match (Some (pre ++ row :: post))) self))
  = terms (snd (_load_single_file (Csv.mkFile lang_match (Some pre)) self))
  /\ language (snd (_load_single_file
                      (Csv.mkFile lang_match (Some (pre ++ row :: post))) self))
     = language self.
Proof.
  intros Hpre Hrow. split.
  - rewrite !load_file_terms.
    change (language_of (Csv.mkFile lang_match (Some pre)))
      with (language_of (Csv.mkFile lang_match (Some (pre ++ row :: post)))).
    unfold after_rows at 1. by rewrite (load_rows_raise _ pre row post self).
  - unfold _load_single_file, try_except, bind. simpl.
    rewrite (load_rows_raise _ pre row post self) by done. simpl.
    apply (for_each_invariant (fun s => language s = language self)); [|done].
    intros [] r s Hs. cbv beta.
    match goal with
    | |- context [_load_row ?lang r s] =>
        destruct (_load_row_cases lang r s)
          as [[_ ->]|[(_ & _ & ->)|(_ & _ & ->)]]; done
    end.
Qed.

Lemma load_stops_at_bad_id_witness :
  terms (snd (_load_single_file
                (Csv.mkFile (Some (py "fr"))
                   (Some ([Demo.first_row]
                            ++ Csv.mkRow (Some None) (Some (Csv.Text (py "router")))
                                         (Some (Csv.Text (py "routeur"))) None
                            :: [Demo.second_row])))
                Demo.manager))
  = terms (snd (_load_single_file
                  (Csv.mkFile (Some (py "fr")) (Some [Demo.first_row])) Demo.manager))
  /\ language (snd (_load_single_file
                      (Csv.mkFile (Some (py "fr"))
                         (Some ([Demo.first_row]
                                  ++ Csv.mkRow (Some None) (Some (Csv.Text (py "router")))
                                               (Some (Csv.Text (py "routeur"))) None
                                  :: [Demo.second_row])))
                      Demo.manager))
     = language Demo.manager.
Proof.
  apply (load_stops_at_bad_id (Some (py "fr")) [Demo.first_row]
           (Csv.mkRow (Some None) (Some (Csv.Text (py "router")))
                     (Some (Csv.Text (py "routeur"))) None)
           [Demo.second_row] Demo.manager).
  - repeat constructor. unfold converts. simpl. discriminate.
  - reflexivity.
Defined.

(** X4.  After a file whose ids all convert is loaded, [get_language]
    returns the language of that file: the group captured in its name,
    lowercased, or "en"; it returns "en" as long as no file has recorded a
    language. *)
Theorem get_language_after_load :
  (forall lang_match rows self,
     Forall converts rows ->
     returns get_language
             (snd (_load_single_file (Csv.mkFile lang_match (Some rows)) self))
             (language_of (Csv.mkFile lang_match (Some rows))))
  /\ (forall csv, lower (language_of csv) = language_of csv)
  /\ (forall self, language self = None -> returns get_language self (py "en")).
Proof.
  split; [|split].
  - intros lang_match rows self Hrows.
    unfold _load_single_file, try_except, bind, language_of. simpl.
    rewrite load_rows_ok by done. reflexivity.
  - intros [[g|] rows]; unfold language_of; simpl; [apply lower_lower|done].
  - intros self Hnone. unfold returns, get_language, bind, self_language.
    by rewrite Hnone.
Qed.

Lemma get_language_after_load_witness :
  returns get_language
          (snd (_load_single_file
                  (Csv.mkFile (Some (py "ES")) (Some [Demo.first_row]))
                  Demo.empty_manager))
          (language_of (Csv.mkFile (Some (py "ES")) (Some [Demo.first_row]))).
Proof.
  apply (proj1 get_language_after_load (Some (py "ES")) [Demo.first_row]
           Demo.empty_manager).
  repeat constructor. unfold converts. simpl. discriminate.
Defined.

Lemma store_ok_insert ts lang n row :
  kept row -> store_ok ts ->
  store_ok (<[normalized_term row := term_of_row lang n row]> ts).
Proof.
  intros [Hkey Htr] Hts key t Hlookup.
  destruct (decide (normalized_term row = key)) as [<-|Hne].
  - rewrite lookup_insert_eq in Hlookup. injection Hlookup as <-.
    repeat split; [done| |done].
    unfold normalized_term. apply normalize_idempotent.
  - rewrite lookup_insert_ne in Hlookup by done. by apply Hts.
Qed.

Lemma _load_row_store_ok lang row self :
  store_ok (terms self) -> store_ok (terms (snd (_load_row lang row self))).
Proof.
  intros Hok.
  destruct (_load_row_cases lang row self)
    as [[_ ->]|[(_ & _ & ->)|(_ & Hkept & ->)]]; [done..|].
  by apply store_ok_insert.
Qed.

Lemma _load_single_file_store_ok csv self :
  store_ok (terms self) -> store_ok (terms (snd (_load_single_file csv self))).
Proof.
  intros Hok. destruct csv as [lang_match [rows|]]; [|done].
  rewrite load_file_terms. unfold after_rows.
  apply (for_each_invariant (fun s => store_ok (terms s))); [|done].
  intros [] row s. apply _load_row_store_ok.
Qed.

(** X5.  Loading keeps the store well formed: if every key of the store is
    not empty, lowercase and trimmed, is the [term] of its record, and has a
    translation that is not empty, then the same holds after a file or a
    whole source is loaded, whatever happens during the load; it holds of
    every manager that [__init__] builds. *)
Theorem loading_keeps_store_ok :
  (forall csv self,
     store_ok (terms self) -> store_ok (terms (snd (_load_single_file csv self))))
  /\ (forall self,
        store_ok (terms self) -> store_ok (terms (snd (_load_terminology self))))
  /\ (forall terminology_source, store_ok (terms (__init__ terminology_source))).
Proof.
  assert (forall self,
            store_ok (terms self) -> store_ok (terms (snd (_load_terminology self))))
    as Hsource.
  { intros self Hok. unfold _load_terminology, bind, self_terminology_source.
    destruct (terminology_source self) as [[csv|listing]|]; [| |done].
    - by apply _load_single_file_store_ok.
    - apply (for_each_invariant (fun s => store_ok (terms s))); [|done].
      intros [] f s. apply _load_single_file_store_ok. }
  split; [exact _load_single_file_store_ok|]. split; [exact Hsource|].
  intros [src|]; unfold __init__.
  - apply Hsource. intros key t Hlookup. simpl in Hlookup.
    by rewrite lookup_empty in Hlookup.
  - intros key t Hlookup. simpl in Hlookup. by rewrite lookup_empty in Hlookup.
Qed.

Lemma loading_keeps_store_ok_witness :
  store_ok (terms (snd (_load_single_file Demo.french_csv Demo.manager))).
Proof.
  apply (proj1 loading_keeps_store_ok Demo.french_csv Demo.manager).
  intros key t. unfold Demo.manager, __init__.
  change (terms (snd (_load_terminology
                        (mkManager (Some (SourceFile Demo.server_csv)) ∅ None))))
    with (<[py "server" := Term.mk 1 (py "server") (py "servidor") (py "general")
                                   (py "es") None]> (∅ : gmap str Term)).
  intros Hlookup. destruct (decide (py "server" = key)) as [<-|Hne].
  - rewrite lookup_insert_eq in Hlookup. injection Hlookup as <-.
    repeat split; done.
  - rewrite lookup_insert_ne, lookup_empty in Hlookup by done. done.
Defined.

Lemma after_rows_last lang pre row post self :
  Forall converts pre -> converts row -> kept row ->
  (forall later, later ∈ post -> kept later ->
                 normalized_term later <> normalized_term row) ->
  terms (after_rows lang (pre ++ row :: post) self) !! normalized_term row
  = Some (term_of_row lang (size (terms (after_rows lang pre self))) row).
Proof.
  intros Hpre Hconv Hkept Hpost.
  rewrite (after_rows_app lang pre (row :: post) self Hpre), after_rows_cons.
  destruct (_load_row_cases lang row (after_rows lang pre self))
    as [[? _]|[(_ & ? & _)|(_ & _ & ->)]]; [done..|].
  rewrite after_rows_frame by done. simpl. apply lookup_insert_eq.
Qed.

(** X6.  A record that was loaded is found again: after a file is loaded,
    [_find_matching_term] returns, for every phrase whose lowercased and
    trimmed form is the key of a kept row, the record of the last such row,
    with or without the spaCy model. *)
Theorem loaded_record_is_found nlp lang_match pre row post self phrase :
  Forall converts pre -> converts row -> kept row ->
  (forall later, later ∈ post -> kept later ->
                 normalized_term later <> normalized_term row) ->
  strip (lower phrase) = normalized_term row ->
  returns (_find_matching_term nlp phrase)
          (snd (_load_single_file
                  (Csv.mkFile lang_match (Some (pre ++ row :: post))) self))
          (Some (term_of_row
                   (language_of (Csv.mkFile lang_match (Some pre)))
                   (size (terms (snd (_load_single_file
                                        (Csv.mkFile lang_match (Some pre)) self))))
                   row)).
Proof.
  intros Hpre Hconv Hkept Hpost Hphrase.
  pose proof (_find_matching_term_returns nlp
    (snd (_load_single_file (Csv.mkFile lang_match (Some (pre ++ row :: post))) self))
    phrase) as H.
  rewrite resolve_unfold, Hphrase, load_file_terms in H.
  rewrite (after_rows_last _ pre row post self) in H by done.
  by rewrite load_file_terms.
Qed.

Lemma loaded_record_is_found_witness :
  returns (_find_matching_term None (py " Server"))
          (snd (_load_single_file
                  (Csv.mkFile (Some (py "ES"))
                     (Some ([Demo.first_row] ++ Demo.second_row :: [Demo.empty_row])))
                  Demo.empty_manager))
          (Some (term_of_row
                   (language_of (Csv.mkFile (Some (py "ES")) (Some [Demo.first_row])))
                   (size (terms (snd (_load_single_file
                                        (Csv.mkFile (Some (py "ES"))
                                                    (Some [Demo.first_row]))
                                        Demo.empty_manager))))
                   Demo.second_row)).
Proof.
  apply (loaded_record_is_found None (Some (py "ES")) [Demo.first_row]
           Demo.second_row [Demo.empty_row] Demo.empty_manager (py " Server")).
  - repeat constructor. unfold converts. simpl. discriminate.
  - unfold converts. simpl. discriminate.
  - split; vm_compute; discriminate.
  - intros later Hlater [Hkey _].
    apply list_elem_of_singleton in Hlater as ->. by destruct Hkey.
  - vm_compute. reflexivity.
Defined.

Lemma after_rows_counter lang rows :
  (forall row, row ∈ rows -> Csv.id row = None /\ kept row) ->
  NoDup (map normalized_term rows) ->
  forall self,
    (forall row, row ∈ rows -> terms self !! normalized_term row = None) ->
    size (terms (after_rows lang rows self)) = (size (terms self) + length rows)%nat
    /\ forall (i : nat) row,
         rows !! i = Some row ->
         Term.id <$> terms (after_rows lang rows self) !! normalized_term row
         = Some (Z.of_nat (size (terms self) + i) + 1).
Proof.
  induction rows as [|r rows IH]; intros Hrows Hnodup self Hfresh.
  { rewrite after_rows_nil. split; [simpl; lia|]. intros i row Hi. done. }
  simpl in Hnodup. apply NoDup_cons in Hnodup as [Hr Hnodup].
  destruct (Hrows r) as [Hid Hkept]; [left|].
  assert (forall row, row ∈ rows -> normalized_term row <> normalized_term r) as Hne.
  { intros row Hrow Heq. apply Hr. rewrite <- Heq.
    apply list_elem_of_In, in_map, list_elem_of_In, Hrow. }
  rewrite after_rows_cons.
  destruct (_load_row_cases lang r self)
    as [[? _]|[(_ & ? & _)|(_ & _ & ->)]]; [congruence|done|].
  destruct (IH (fun row Hrow => Hrows row (list_elem_of_further _ _ _ Hrow))
               Hnodup (with_row lang r self)) as [Hsize Hids].
  { intros row Hrow. simpl. rewrite lookup_insert_ne by (symmetry; by apply Hne).
    apply Hfresh. by right. }
  assert (size (terms (with_row lang r self)) = S (size (terms self))) as Hgrow.
  { simpl. apply map_size_insert_None. apply Hfresh. left. }
  split; [rewrite Hsize, Hgrow; simpl; lia|].
  intros [|i] row Hi; simpl in Hi.
  - injection Hi as <-. rewrite after_rows_frame.
    + simpl. rewrite lookup_insert_eq. simpl. unfold term_of_row. rewrite Hid.
      simpl. f_equal. lia.
    + intros row Hrow _. by apply Hne.
  - rewrite (Hids i row Hi), Hgrow. f_equal. lia.
Qed.

(** X7.  Without an id column the ids are a running counter: when the rows
    of a file have no id, are all kept, and have keys that differ from each
    other and from the keys already in the store, the store grows by one
    entry per row and the row at position [i] gets the id [n + i + 1], [n]
    being the number of terms before the load. *)
Theorem default_ids_count_up lang_match rows self :
  (forall row, row ∈ rows -> Csv.id row = None /\ kept row) ->
  NoDup (map normalized_term rows) ->
  (forall row, row ∈ rows -> terms self !! normalized_term row = None) ->
  size (terms (snd (_load_single_file (Csv.mkFile lang_match (Some rows)) self)))
  = (size (terms self) + length rows)%nat
  /\ forall (i : nat) row,
       rows !! i = Some row ->
       Term.id <$> terms (snd (_load_single_file
                                 (Csv.mkFile lang_match (Some rows)) self))
                     !! normalized_term row
       = Some (Z.of_nat (size (terms self)) + Z.of_nat i + 1).
Proof.
  intros Hrows Hnodup Hfresh. rewrite load_file_terms.
  destruct (after_rows_counter (language_of (Csv.mkFile lang_match (Some rows)))
              rows Hrows Hnodup self Hfresh) as [Hsize Hids].
  split; [exact Hsize|]. intros i row Hi. rewrite (Hids i row Hi). f_equal. lia.
Qed.

Lemma default_ids_count_up_witness :
  Term.id <$> terms (snd (_load_single_file
                            (Csv.mkFile None
                               (Some [Demo.router_row; Demo.switch_row]))
                            Demo.manager))
                !! normalized_term Demo.switch_row
  = Some (Z.of_nat (size (terms Demo.manager)) + Z.of_nat 1 + 1).
Proof.
  apply (proj2 (default_ids_count_up None [Demo.router_row; Demo.switch_row]
                  Demo.manager
                  ltac:(intros row Hrow;
                        apply elem_of_cons in Hrow as [->|Hrow];
                          [|apply list_elem_of_singleton in Hrow as ->];
                        (split; [reflexivity|split; vm_compute; discriminate]))
                  ltac:(vm_compute; repeat constructor;
                        rewrite ?elem_of_cons, ?elem_of_nil;
                        intros H; repeat destruct H as [H|H]; discriminate || done)
                  ltac:(intros row Hrow;
                        apply elem_of_cons in Hrow as [->|Hrow];
                          [|apply list_elem_of_singleton in Hrow as ->];
                        vm_compute; reflexivity))
           1%nat Demo.switch_row).
  reflexivity.
Defined.

(** ** What the extractors emit *)

Lemma span_chars_in_bounds text p :
  within text p ->
  span_chars text p
  = drop (Z.to_nat (Phrase.start p)) (take (Z.to_nat (Phrase.end_ p)) text).
Proof.
  intros [[H0 Hse] He]. unfold span_chars, slice_from, slice_to, slice_index.
  destruct (Z.ltb_spec (Phrase.end_ p) 0) as [?|_]; [lia|].
  destruct (Z.ltb_spec (Phrase.start p) 0) as [?|_]; [lia|].
  rewrite length_take. f_equal; [|f_equal]; lia.
Qed.

(** X8.  Without the spaCy model, every span that the extractor emits is a
    stored key that is not empty, and its offsets are offsets in the
    lowercased text: the span lies inside the lowercased text and points at
    its word there.  For a text of ASCII characters the span lies inside the
    text itself and points at characters whose lowercase is the word. *)
Theorem fallback_spans_lie_in_text self text p :
  p ∈ value (_extract_noun_phrases None text) self [] ->
  is_Some (terms self !! Phrase.text p)
  /\ Phrase.text p <> []
  /\ within (lower text) p
  /\ span_chars (lower text) p = Phrase.text p
  /\ (isascii text = true ->
      within text p /\ lower (span_chars text p) = Phrase.text p).
Proof.
  rewrite (returns_value _ _ _ [] (fallback_extract_returns self text)).
  intros Hp. apply list_elem_of_In, in_map_iff in Hp as (w & <- & Hw).
  apply list_elem_of_In, list_elem_of_filter in Hw as [Hstored Hw].
  apply findall_words_substring in Hw as (Hne & _ & Hsub).
  destruct (find_first _ _ Hsub) as (n & Hn & (a & b & Heq & Ha) & _).
  assert (length (lower text) = length a + length w + length b)%nat as Hlen.
  { rewrite Heq, !length_app. lia. }
  assert (within (lower text)
            (Phrase.mk w (find (lower text) w)
                       (find (lower text) w + Z.of_nat (length w)) None)) as Hin.
  { unfold within. simpl. lia. }
  assert (drop (Z.to_nat (find (lower text) w))
               (take (Z.to_nat (find (lower text) w + Z.of_nat (length w)))
                     (lower text)) = w) as Hword.
  { rewrite Hn, Heq.
    replace (Z.to_nat (Z.of_nat n + Z.of_nat (length w)))
      with (length (a ++ w)) by (rewrite length_app; lia).
    rewrite app_assoc, take_app_length.
    replace (Z.to_nat (Z.of_nat n)) with (length a) by lia.
    by rewrite drop_app_length. }
  split; [done|]. split; [done|]. split; [exact Hin|]. split.
  - rewrite (span_chars_in_bounds _ _ Hin). exact Hword.
  - intros _.
    assert (within text
              (Phrase.mk w (find (lower text) w)
                         (find (lower text) w + Z.of_nat (length w)) None)) as Hin'.
    { unfold within in *. unfold lower in Hin. rewrite length_map in Hin. done. }
    split; [exact Hin'|].
    rewrite (span_chars_in_bounds _ _ Hin'). simpl.
    unfold lower at 1. rewrite <- skipn_map, <- firstn_map. exact Hword.
Qed.

Lemma fallback_spans_lie_in_text_witness :
  within (py "The Server is down") (Phrase.mk (py "server") 4 10 None)
  /\ lower (span_chars (py "The Server is down")
                       (Phrase.mk (py "server") 4 10 None))
     = Phrase.text (Phrase.mk (py "server") 4 10 None).
Proof.
  refine (proj2 (proj2 (proj2 (proj2
            (fallback_spans_lie_in_text Demo.manager (py "The Server is down")
               (Phrase.mk (py "server") 4 10 None) _)))) eq_refl).
  vm_compute. left.
Defined.

Lemma covered_spans_spec (nps : list Phrase) (i : Z) :
  forall covered : gset Z,
    i ∈ foldl (fun covered np =>
                 covered ∪ list_to_set
                   (seqZ (Phrase.start np) (Phrase.end_ np - Phrase.start np)))
              covered nps
    <-> i ∈ covered
        \/ exists np, np ∈ nps /\ Phrase.start np <= i < Phrase.end_ np.
Proof.
  induction nps as [|np nps IH]; intros covered; simpl.
  - split; [by left|]. intros [?|(np & Hnp & _)]; [done|].
    by apply elem_of_nil in Hnp.
  - rewrite IH, elem_of_union, elem_of_list_to_set, elem_of_seqZ. split.
    + intros [[?|?]|(np' & ? & ?)]; [by left|right..].
      * exists np. split; [left|lia].
      * exists np'. split; [by right|done].
    + intros [?|(np' & Hnp' & ?)]; [by left; left|].
      apply elem_of_cons in Hnp' as [->|?].
      * left. right. lia.
      * right. eauto.
Qed.

(** X9.  With the spaCy model, the extractor emits every noun chunk with
    the offsets of the chunk, and a token on its own exactly when its part
    of speech is PROPN or NOUN and its start offset lies in no chunk; it
    emits nothing else. *)
Theorem rich_extractor_spans pipeline self text p :
  p ∈ value (_extract_noun_phrases (Some pipeline) text) self []
  <-> (exists chunk,
          chunk ∈ Spacy.noun_chunks (Spacy.call pipeline text)
          /\ p = Phrase.mk (Spacy.span_text chunk) (Spacy.start_char chunk)
                           (Spacy.end_char chunk)
                           (Some (Spacy.text (Spacy.root chunk))))
      \/ (exists token,
             token ∈ Spacy.tokens (Spacy.call pipeline text)
             /\ p = Phrase.mk (Spacy.text token) (Spacy.idx token)
                              (Spacy.idx token
                               + Z.of_nat (length (Spacy.text token)))
                              (Some (Spacy.text token))
             /\ (Spacy.pos_ token = py "PROPN" \/ Spacy.pos_ token = py "NOUN")
             /\ forall chunk,
                  chunk ∈ Spacy.noun_chunks (Spacy.call pipeline text) ->
                  ~ (Spacy.start_char chunk <= Spacy.idx token
                     < Spacy.end_char chunk)).
Proof.
  unfold value, _extract_noun_phrases, ret. simpl.
  rewrite elem_of_app. f_equiv.
  - rewrite list_elem_of_In, in_map_iff. split.
    + intros (chunk & <- & Hc). exists chunk. by rewrite list_elem_of_In.
    + intros (chunk & Hc & ->). exists chunk. by rewrite <- list_elem_of_In.
  - rewrite list_elem_of_In, in_map_iff.
    assert (forall token,
              Spacy.idx token ∉ foldl
                (fun covered np =>
                   covered ∪ list_to_set
                     (seqZ (Phrase.start np) (Phrase.end_ np - Phrase.start np)))
                (∅ : gset Z)
                (map (fun chunk =>
                        Phrase.mk (Spacy.span_text chunk) (Spacy.start_char chunk)
                                  (Spacy.end_char chunk)
                                  (Some (Spacy.text (Spacy.root chunk))))
                     (Spacy.noun_chunks (Spacy.call pipeline text)))
              <-> forall chunk,
                    chunk ∈ Spacy.noun_chunks (Spacy.call pipeline text) ->
                    ~ (Spacy.start_char chunk <= Spacy.idx token
                       < Spacy.end_char chunk)) as Hcov.
    { intros token. rewrite covered_spans_spec. split.
      - intros Hno chunk Hc Hin. apply Hno. right.
        exists (Phrase.mk (Spacy.span_text chunk) (Spacy.start_char chunk)
                          (Spacy.end_char chunk)
                          (Some (Spacy.text (Spacy.root chunk)))).
        split; [|exact Hin]. apply list_elem_of_In, in_map_iff.
        exists chunk. split; [done|by apply list_elem_of_In].
      - intros Hno [Hin|(np & Hnp & Hin)]; [by apply not_elem_of_empty in Hin|].
        apply list_elem_of_In, in_map_iff in Hnp as (chunk & <- & Hc).
        apply (Hno chunk); [by apply list_elem_of_In|done]. }
    split.
    + intros (token & <- & Ht).
      apply list_elem_of_In, list_elem_of_filter in Ht as [[Hpos Hidx] Ht].
      exists token. split; [done|]. split; [done|]. split; [|by apply Hcov].
      apply elem_of_cons in Hpos as [?|Hpos]; [by left|right].
      by apply list_elem_of_singleton in Hpos.
    + intros (token & Ht & -> & Hpos & Hno). exists token. split; [done|].
      apply list_elem_of_In, list_elem_of_filter. split; [|done].
      split; [|by apply Hcov].
      destruct Hpos as [->| ->]; [left|right; left].
Qed.

Lemma rich_extractor_spans_witness :
  Phrase.mk (py "today") 19 24 (Some (py "today"))
  ∈ value (_extract_noun_phrases (Some Demo.pipeline) (py "The Server is down today"))
          Demo.manager [].
Proof.
  apply (proj2 (rich_extractor_spans Demo.pipeline Demo.manager
                  (py "The Server is down today")
                  (Phrase.mk (py "today") 19 24 (Some (py "today"))))).
  right. exists (Spacy.mkToken (py "today") 19 (py "NOUN")).
  split; [|split; [reflexivity|split; [by right|]]].
  - simpl. do 4 right. left.
  - intros chunk Hchunk. simpl in Hchunk.
    apply list_elem_of_singleton in Hchunk as ->. simpl. lia.
Defined.

(** ** What [preprocess_text] returns *)

Lemma Forall_dict_set {V} (P : str * V -> Prop) (d : dict V) k v :
  Forall P d -> P (k, v) -> Forall P (dict_set d k v).
Proof.
  intros Hd Hkv. induction Hd as [|[k' v'] d Hx Hd IH]; simpl.
  - by constructor.
  - destruct (decide (k' = k)) as [->|_]; by constructor.
Qed.

Lemma resolve_stored nlp self phrase term_obj :
  resolve nlp self phrase = Some term_obj ->
  exists key, terms self !! key = Some term_obj.
Proof.
  rewrite resolve_unfold.
  destruct (terms self !! strip (lower phrase)) as [t|] eqn:E.
  { intros [= <-]. eauto. }
  destruct (_remove_stopwords nlp (strip (lower phrase))) as [|c w]; [done|eauto].
Qed.

Lemma matching_extracted nlp self text p :
  p ∈ value (matching_phrases nlp text) self [] ->
  p ∈ value (_extract_noun_phrases nlp text) self []
  /\ is_Some (resolve nlp self (Phrase.text p)).
Proof.
  rewrite (returns_value _ _ _ [] (matching_phrases_returns nlp self text)).
  rewrite sort_by_start_desc_perm. intros Hp.
  apply list_elem_of_In, filter_In in Hp as [Hp Hres].
  split; [by apply list_elem_of_In|]. by apply bool_decide_eq_true in Hres.
Qed.

(** X10.  The mappings that [preprocess_text] returns are consistent with
    the store and the text: every placeholder of the first mapping is the
    token of the term it maps to, and that term is in the store; every
    original text of the second mapping is the text of an extracted phrase
    that resolves to a term with that token. *)
Theorem preprocess_mappings_consistent nlp self text :
  exists result,
    returns (preprocess_text nlp text) self result
    /\ Forall (fun item : str * Term =>
                 item.1 = placeholder_of item.2
                 /\ exists key, terms self !! key = Some item.2)
              result.1.2
    /\ Forall (fun item : str * str =>
                 exists phrase term_obj,
                   phrase ∈ value (_extract_noun_phrases nlp text) self []
                   /\ item.2 = Phrase.text phrase
                   /\ resolve nlp self item.2 = Some term_obj
                   /\ item.1 = placeholder_of term_obj)
              result.2.
Proof.
  eexists. split; [apply preprocess_text_returns|].
  destruct (Nat.eqb (size (terms self)) 0); [by split; constructor|].
  assert (forall spans locals,
            (forall p, p ∈ spans -> p ∈ value (_extract_noun_phrases nlp text) self []) ->
            Forall (fun item : str * Term =>
                      item.1 = placeholder_of item.2
                      /\ exists key, terms self !! key = Some item.2) locals.1.2 ->
            Forall (fun item : str * str =>
                      exists phrase term_obj,
                        phrase ∈ value (_extract_noun_phrases nlp text) self []
                        /\ item.2 = Phrase.text phrase
                        /\ resolve nlp self item.2 = Some term_obj
                        /\ item.1 = placeholder_of term_obj) locals.2 ->
            let result := foldl (encode_phrase nlp self) locals spans in
            Forall (fun item : str * Term =>
                      item.1 = placeholder_of item.2
                      /\ exists key, terms self !! key = Some item.2) result.1.2
            /\ Forall (fun item : str * str =>
                         exists phrase term_obj,
                           phrase ∈ value (_extract_noun_phrases nlp text) self []
                           /\ item.2 = Phrase.text phrase
                           /\ resolve nlp self item.2 = Some term_obj
                           /\ item.1 = placeholder_of term_obj) result.2) as Hloop.
  { induction spans as [|p spans IH]; intros locals Hspans H1 H2; simpl; [done|].
    apply IH; [intros q Hq; apply Hspans; by right|..];
      unfold encode_phrase;
      destruct (resolve nlp self (Phrase.text p)) as [t|] eqn:E; simpl; try done.
    - apply Forall_dict_set; [done|]. split; [done|]. by eapply resolve_stored.
    - apply Forall_dict_set; [done|]. exists p, t.
      split; [apply Hspans; left|done]. }
  apply Hloop; [|constructor..].
  intros p Hp. by apply matching_extracted in Hp as [? _].
Qed.

(** X11.  [preprocess_text] leaves the text before the leftmost candidate
    span as it is: the first [k] characters of the result are those of the
    text when no extracted phrase starts before [k]. *)
Theorem preprocess_keeps_prefix nlp self text (k : nat) :
  (forall p, p ∈ value (_extract_noun_phrases nlp text) self [] ->
             Z.of_nat k <= Phrase.start p) ->
  (k <= length text)%nat ->
  exists result,
    returns (preprocess_text nlp text) self result
    /\ take k result.1.1 = take k text.
Proof.
  intros Hstart Hlen. eexists. split; [apply preprocess_text_returns|].
  destruct (Nat.eqb (size (terms self)) 0); [done|].
  apply (encode_all_take nlp self _ k); [|done].
  apply Forall_forall. intros p Hp. apply Hstart.
  by apply matching_extracted in Hp as [? _].
Qed.

Lemma preprocess_keeps_prefix_witness :
  exists result,
    returns (preprocess_text None (py "The server is down. Restart the server."))
            Demo.manager result
    /\ take 4 result.1.1 = take 4 (py "The server is down. Restart the server.").
Proof.
  apply (preprocess_keeps_prefix None Demo.manager
           (py "The server is down. Restart the server.") 4).
  - intros p Hp. vm_compute in Hp.
    apply elem_of_cons in Hp as [->|Hp];
      [|apply list_elem_of_singleton in Hp as ->]; simpl; lia.
  - simpl. lia.
Defined.

(** ** Round trip of one call *)

Lemma replace_scan_clean o old new s :
  o ∉ s -> replace_scan (o :: old) new O s = s.
Proof.
  intros Hs. rewrite <- (app_nil_r s) at 1.
  rewrite replace_scan_pass by done. simpl. apply app_nil_r.
Qed.

Lemma join_cons sep w w' l : join sep (w :: w' :: l) = w ++ sep ++ join sep (w' :: l).
Proof. reflexivity. Qed.

Lemma replace_join k new pieces :
  bracketed k ->
  (forall piece, piece ∈ pieces -> "<"%char ∉ piece) ->
  replace (join k pieces) k new = join new pieces.
Proof.
  intros Hk Hpieces. rewrite replace_bracketed by done.
  destruct Hk as (body & -> & _).
  remember (body ++ [">"%char]) as tail eqn:Htail. clear Htail.
  induction pieces as [|w pieces IH]; [done|].
  assert ("<"%char ∉ w) as Hw by (apply Hpieces; left).
  destruct pieces as [|w' pieces].
  - by apply replace_scan_clean.
  - rewrite !join_cons, replace_scan_pass, replace_scan_match, IH; [done| |done].
    intros piece Hpiece. apply Hpieces. by right.
Qed.

Lemma dict_get_absent {V} (d : dict V) k default :
  k ∉ dict_keys d -> dict_get d k default = default.
Proof.
  induction d as [|[k' v'] d IH]; simpl; [done|].
  intros Hk. apply not_elem_of_cons in Hk as [Hne Hk].
  destruct (decide (k' = k)) as [->|_]; [done|]. by apply IH.
Qed.

(** X12.  [postprocess_text] replaces every occurrence of a mapped
    placeholder alike: in a text made of pieces without ["<"] joined by the
    placeholder, each occurrence becomes the translation, rendered after the
    case of the recorded original, and the pieces stay as they are.  When no
    original is recorded for the placeholder, the translation is used as it
    is. *)
Theorem postprocess_replaces_every_occurrence self pieces placeholder term_obj
    original_cases :
  is_placeholder placeholder ->
  (forall piece, piece ∈ pieces -> "<"%char ∉ piece) ->
  returns (postprocess_text (join placeholder pieces) [(placeholder, term_obj)]
                            original_cases) self
          (join (restored (dict_get original_cases placeholder [])
                          (Term.translation term_obj)) pieces)
  /\ (placeholder ∉ dict_keys original_cases ->
      returns (postprocess_text (join placeholder pieces) [(placeholder, term_obj)]
                                original_cases) self
              (join (Term.translation term_obj) pieces)).
Proof.
  intros Hk Hpieces.
  pose proof (postprocess_text_returns self (join placeholder pieces)
                [(placeholder, term_obj)] original_cases) as H.
  simpl in H. unfold restore_item in H. simpl in H.
  rewrite replace_join in H by (by apply is_placeholder_bracketed || done).
  split; [exact H|]. intros Habsent. by rewrite dict_get_absent in H.
Qed.

(** A character does not occur in a given string. *)
Ltac absent_char :=
  let H := fresh in
  intros H; unfold py in H; simpl in H;
  repeat (apply elem_of_cons in H as [H|H]; [discriminate H|]);
  by apply elem_of_nil in H.

Lemma postprocess_replaces_every_occurrence_witness :
  returns (postprocess_text
             (join (py "<1>") [py "Our "; py " and your "; py "."])
             [(py "<1>", Demo.database)] [(py "<1>", py "DATABASE")])
          Demo.manager
          (join (restored (dict_get [(py "<1>", py "DATABASE")] (py "<1>") [])
                          (Term.translation Demo.database))
                [py "Our "; py " and your "; py "."]).
Proof.
  apply (proj1 (postprocess_replaces_every_occurrence Demo.manager
                  [py "Our "; py " and your "; py "."] (py "<1>") Demo.database
                  [(py "<1>", py "DATABASE")]
                  (ex_intro _ 1 eq_refl)
                  ltac:(intros piece Hpiece;
                        repeat (apply elem_of_cons in Hpiece as [->|Hpiece];
                                [absent_char|]);
                        by apply elem_of_nil in Hpiece))).
Defined.

Lemma not_elem_of_take_drop (x : ascii) (s : str) n m :
  x ∉ s -> (x ∉ take n s) /\ (x ∉ drop m s).
Proof.
  intros Hx. split; intros Hin; apply Hx.
  - rewrite <- (take_drop n s). apply elem_of_app. by left.
  - rewrite <- (take_drop m s). apply elem_of_app. by right.
Qed.

Lemma splice_in_bounds text p placeholder :
  within text p ->
  splice text p placeholder
  = take (Z.to_nat (Phrase.start p)) text
      ++ placeholder ++ drop (Z.to_nat (Phrase.end_ p)) text.
Proof.
  intros [[H0 Hse] He]. unfold splice, slice_to, slice_from, slice_index.
  destruct (Z.ltb_spec (Phrase.end_ p) 0) as [?|_]; [lia|].
  destruct (Z.ltb_spec (Phrase.start p) 0) as [?|_]; [lia|].
  f_equal; [|f_equal]; f_equal; lia.
Qed.

(** X13.  One call and back: when exactly one phrase of a text without
    ["<"] matches, with offsets inside the text, [preprocess_text] puts the
    token of its term in the place of the characters between the offsets and
    records the term and the text of the phrase under the token, and
    [postprocess_text] on that result puts the case-adjusted translation
    there, the text before and after being as in the input. *)
Theorem single_span_round_trip nlp self text p term_obj :
  value (matching_phrases nlp text) self [] = [p] ->
  resolve nlp self (Phrase.text p) = Some term_obj ->
  within text p ->
  "<"%char ∉ text ->
  returns (preprocess_text nlp text) self
          (take (Z.to_nat (Phrase.start p)) text
             ++ placeholder_of term_obj
             ++ drop (Z.to_nat (Phrase.end_ p)) text,
           [(placeholder_of term_obj, term_obj)],
           [(placeholder_of term_obj, Phrase.text p)])
  /\ returns (postprocess_text
                (take (Z.to_nat (Phrase.start p)) text
                   ++ placeholder_of term_obj
                   ++ drop (Z.to_nat (Phrase.end_ p)) text)
                [(placeholder_of term_obj, term_obj)]
                [(placeholder_of term_obj, Phrase.text p)]) self
             (take (Z.to_nat (Phrase.start p)) text
                ++ restored (Phrase.text p) (Term.translation term_obj)
                ++ drop (Z.to_nat (Phrase.end_ p)) text).
Proof.
  intros Hmatching Hresolve Hwithin Hclean. split.
  - pose proof (preprocess_text_returns nlp self text) as H.
    rewrite Hmatching in H.
    destruct (Nat.eqb (size (terms self)) 0) eqn:E.
    { apply Nat.eqb_eq, map_size_empty_iff in E.
      by rewrite resolve_empty_store in Hresolve. }
    simpl in H. unfold encode_phrase in H. rewrite Hresolve in H. simpl in H.
    by rewrite splice_in_bounds in H.
  - destruct (not_elem_of_take_drop _ _ (Z.to_nat (Phrase.start p))
                (Z.to_nat (Phrase.end_ p)) Hclean) as [Hbefore Hafter].
    pose proof (postprocess_text_returns self
                  (join (placeholder_of term_obj)
                        [take (Z.to_nat (Phrase.start p)) text;
                         drop (Z.to_nat (Phrase.end_ p)) text])
                  [(placeholder_of term_obj, term_obj)]
                  [(placeholder_of term_obj, Phrase.text p)]) as H.
    cbn [foldl] in H. unfold restore_item in H. cbn [fst snd dict_get] in H.
    rewrite decide_True in H by done.
    rewrite replace_join in H; [exact H| |].
    + apply is_placeholder_bracketed, placeholder_of_is_placeholder.
    + intros piece Hpiece. apply elem_of_cons in Hpiece as [->|Hpiece]; [done|].
      by apply list_elem_of_singleton in Hpiece as ->.
Qed.

Lemma single_span_round_trip_witness :
  returns (preprocess_text None (py "the server is down")) Demo.manager
          (take (Z.to_nat (Phrase.start Demo.span_lower_server))
                (py "the server is down")
             ++ placeholder_of Demo.server_term
             ++ drop (Z.to_nat (Phrase.end_ Demo.span_lower_server))
                     (py "the server is down"),
           [(placeholder_of Demo.server_term, Demo.server_term)],
           [(placeholder_of Demo.server_term, Phrase.text Demo.span_lower_server)])
  /\ returns (postprocess_text
                (take (Z.to_nat (Phrase.start Demo.span_lower_server))
                      (py "the server is down")
                   ++ placeholder_of Demo.server_term
                   ++ drop (Z.to_nat (Phrase.end_ Demo.span_lower_server))
                           (py "the server is down"))
                [(placeholder_of Demo.server_term, Demo.server_term)]
                [(placeholder_of Demo.server_term,
                  Phrase.text Demo.span_lower_server)]) Demo.manager
             (take (Z.to_nat (Phrase.start Demo.span_lower_server))
                   (py "the server is down")
                ++ restored (Phrase.text Demo.span_lower_server)
                            (Term.translation Demo.server_term)
                ++ drop (Z.to_nat (Phrase.end_ Demo.span_lower_server))
                        (py "the server is down")).
Proof.
  apply (single_span_round_trip None Demo.manager (py "the server is down")
           Demo.span_lower_server Demo.server_term).
  - vm_compute. reflexivity.
  - vm_compute. reflexivity.
  - unfold within. simpl. lia.
  - absent_char.
Defined.

(** ** Directories *)

Lemma endswith_suffix s suffix :
  endswith s suffix = true <-> exists a, s = a ++ suffix.
Proof.
  unfold endswith. rewrite startswith_prefix. split.
  - intros [b Hb]. exists (rev b).
    rewrite <- (rev_involutive s), Hb, rev_app_distr. by rewrite rev_involutive.
  - intros [a ->]. exists (rev a). by rewrite rev_app_distr.
Qed.

(** X14.  Only the entries of a directory whose name ends in ".csv" are
    loaded: a directory without such an entry leaves the manager as it was,
    and a directory whose only such entry is one file gives the manager that
    loading this file gives, whatever the other entries are. *)
Theorem directory_loads_csv_files_only ts lang :
  (forall listing,
     (forall entry, entry ∈ listing -> ~ exists a, entry.1 = a ++ py ".csv") ->
     _load_terminology (mkManager (Some (SourceDir listing)) ts lang)
     = (Ok tt, mkManager (Some (SourceDir listing)) ts lang))
  /\ (forall before name csv after,
        (forall entry, entry ∈ before ++ after ->
                       ~ exists a, entry.1 = a ++ py ".csv") ->
        snd (_load_terminology
               (mkManager (Some (SourceDir (before ++ (name ++ py ".csv", csv) :: after)))
                          ts lang))
        = snd (_load_single_file csv
                 (mkManager (Some (SourceDir (before ++ (name ++ py ".csv", csv) :: after)))
                            ts lang))).
Proof.
  assert (forall listing : list (str * Csv.File),
            (forall entry, entry ∈ listing -> ~ exists a, entry.1 = a ++ py ".csv") ->
            filter (fun f => endswith f.1 (py ".csv") = true) listing = []) as Hnone.
  { intros listing Hno. induction listing as [|e listing IH]; [done|].
    rewrite filter_cons_False.
    - apply IH. intros entry Hentry. apply Hno. by right.
    - rewrite endswith_suffix. apply Hno. left. }
  split.
  - intros listing Hno.
    unfold _load_terminology, bind, self_terminology_source.
    cbn [terminology_source]. by rewrite (Hnone listing Hno).
  - intros before name csv after Hno.
    unfold _load_terminology, bind, self_terminology_source.
    cbn [terminology_source].
    rewrite filter_app, filter_cons_True
      by (apply endswith_suffix; by exists name).
    rewrite (Hnone before), (Hnone after);
      [|intros entry Hentry; apply Hno, elem_of_app; by right
       |intros entry Hentry; apply Hno, elem_of_app; by left].
    simpl. unfold bind.
    by destruct (_load_single_file csv _) as [[[]|e] self'].
Qed.

Lemma directory_loads_csv_files_only_witness :
  snd (_load_terminology
         (mkManager (Some (SourceDir ([(py "notes.txt", Demo.old_csv)]
                                        ++ (py "terminologies_fr" ++ py ".csv",
                                            Demo.french_csv)
                                        :: [(py "csv", Demo.spanish_csv)])))
                    ∅ None))
  = snd (_load_single_file Demo.french_csv
           (mkManager (Some (SourceDir ([(py "notes.txt", Demo.old_csv)]
                                          ++ (py "terminologies_fr" ++ py ".csv",
                                              Demo.french_csv)
                                          :: [(py "csv", Demo.spanish_csv)])))
                      ∅ None)).
Proof.
  apply (proj2 (directory_loads_csv_files_only ∅ None)
           [(py "notes.txt", Demo.old_csv)] (py "terminologies_fr")
           Demo.french_csv [(py "csv", Demo.spanish_csv)]).
  intros entry Hentry [a Ha].
  apply elem_of_cons in Hentry as [->|Hentry];
    [|apply list_elem_of_singleton in Hentry as ->];
    apply (f_equal (@rev ascii)) in Ha; rewrite rev_app_distr in Ha;
    vm_compute in Ha; discriminate Ha.
Defined.
